(** * Mutual-authentication manager of pkg/auth: cache, manager, GC and wiring

    The development follows [src/pkg/auth/cell.go].  That file wires the
    auth map cache, the auth manager and the garbage collector together;
    the bodies of the components it wires live in sibling files of the
    package, so they are given here from their written contract and each
    such definition says so. *)

From stdpp Require Import gmap strings list fin_maps.
From Stdlib Require Import ZArith Lia.

(** ** Errors and results *)

(** A Go [error]: a message, or [fmt.Errorf("<msg>: %w", cause)]. *)
Inductive Error :=
| ErrMsg (msg : string)
| ErrWrap (msg : string) (cause : Error).

Inductive Result (A : Type) :=
| Ok (a : A)
| Err (e : Error).
Arguments Ok {A} a.
Arguments Err {A} e.

#[global] Instance Error_eq_dec : EqDecision Error.
Proof. solve_decision. Defined.

(** The error list a task reports to the observability layer. *)
Definition reportOf (r : option Error) : list Error :=
  match r with
  | Some e => [e]
  | None => []
  end.

(** ** Data model *)

(** Key of one directional authentication relationship. *)
Record authKey := mkAuthKey {
  localIdentity : Z;
  remoteIdentity : Z;
  remoteNodeID : Z
}.

#[global] Instance authKey_eq_dec : EqDecision authKey.
Proof. solve_decision. Defined.

#[global] Instance authKey_countable : Countable authKey.
Proof.
  refine (inj_countable'
            (λ k, (localIdentity k, remoteIdentity k, remoteNodeID k))
            (λ t, mkAuthKey t.1.1 t.1.2 t.2) _).
  by intros [].
Defined.

(** Value of an entry: the absolute time at which it stops being valid. *)
Record authMapValue := mkValue { expiration : Z }.

#[global] Instance authMapValue_eq_dec : EqDecision authMapValue.
Proof. solve_decision. Defined.

Inductive AuthType :=
| AuthTypeNull
| AuthTypeAlwaysFail
| AuthTypeMutual.

#[global] Instance AuthType_eq_dec : EqDecision AuthType.
Proof. solve_decision. Defined.

(** The unit carried on the signal channel: a key plus the required type. *)
Record signalAuthKey := mkSignal {
  sigKey : authKey;
  sigAuthType : AuthType
}.

Abbreviation entries := (gmap authKey authMapValue).

(** An entry is live at [now] when its expiration lies strictly after
    [now]; it is expired when its expiration is at or before [now]. *)
Definition live (now : Z) (v : authMapValue) : bool := (now <? expiration v)%Z.
Definition expired (now : Z) (v : authMapValue) : bool := (expiration v <=? now)%Z.

(** ** AuthMapStore *)

Module AuthMapStore.

(** Modelled from the spec: the persisted map behind [authmap.Map] is not
    part of the package's wiring file.  Its operations may fail with an
    I/O or capacity error and perform no retry; which calls fail is
    decided by the environment, given here as three oracles over the
    current content. *)
Record Faults := mkFaults {
  updateFault : authKey → authMapValue → entries → option Error;
  deleteFault : authKey → entries → option Error;
  allFault : entries → option Error
}.

Definition update (F : Faults) (k : authKey) (v : authMapValue) (s : entries)
  : Result entries :=
  match updateFault F k v s with
  | Some e => Err e
  | None => Ok (<[k := v]> s)
  end.

Definition delete (F : Faults) (k : authKey) (s : entries) : Result entries :=
  match deleteFault F k s with
  | Some e => Err e
  | None => Ok (base.delete k s)
  end.

Definition all (F : Faults) (s : entries) : Result (list (authKey * authMapValue)) :=
  match allFault F s with
  | Some e => Err e
  | None => Ok (map_to_list s)
  end.

(** A store whose calls all succeed, and one whose calls all fail. *)
Definition reliable : Faults :=
  mkFaults (λ _ _ _, None) (λ _ _, None) (λ _, None).
Definition broken : Faults :=
  mkFaults (λ _ _ _, Some (ErrMsg "update: i/o error"))
           (λ _ _, Some (ErrMsg "delete: i/o error"))
           (λ _, Some (ErrMsg "all: i/o error")).

End AuthMapStore.

(** ** AuthMapCache *)

Module AuthMapCache.

(** The cache owns the in-memory mirror and writes through to the store. *)
Record authMapCache := mkCache {
  mirror : entries;
  store : entries
}.

Section Ops.
Variable F : AuthMapStore.Faults.

(** Modelled from the spec: [restoreCache] is not in the wiring file.
    It reads every entry of the store and populates the mirror. *)
Definition restoreCache (c : authMapCache) : authMapCache * option Error :=
  match AuthMapStore.all F (store c) with
  | Err e => (c, Some e)
  | Ok es => (mkCache (list_to_map es) (store c), None)
  end.

(** Modelled from the spec: [get] is not in the wiring file.  It looks
    at the mirror only. *)
Definition get (k : authKey) (c : authMapCache) : option authMapValue :=
  mirror c !! k.

(** Modelled from the spec: [set] is not in the wiring file.  The store
    is written first and the mirror follows only when that succeeded. *)
Definition set (k : authKey) (v : authMapValue) (c : authMapCache)
  : authMapCache * option Error :=
  match AuthMapStore.update F k v (store c) with
  | Err e => (c, Some e)
  | Ok s' => (mkCache (<[k := v]> (mirror c)) s', None)
  end.

(** Modelled from the spec: [delete] is not in the wiring file.  It is
    symmetric to [set]: store first, then the mirror. *)
Definition delete (k : authKey) (c : authMapCache)
  : authMapCache * option Error :=
  match AuthMapStore.delete F k (store c) with
  | Err e => (c, Some e)
  | Ok s' => (mkCache (base.delete k (mirror c)) s', None)
  end.

(** Modelled from the spec: [entriesMatching] is not in the wiring file.
    It enumerates a snapshot of the mirror entries satisfying the
    predicate. *)
Definition entriesMatching (P : authKey → authMapValue → bool)
    (c : authMapCache) : list (authKey * authMapValue) :=
  map_to_list (filter (λ kv, P kv.1 kv.2 = true) (mirror c)).

(** Deleting a snapshot of keys one by one; a failed delete is reported
    and the remaining keys are still attempted. *)
Fixpoint deleteAll (ks : list authKey) (c : authMapCache)
  : authMapCache * list Error :=
  match ks with
  | [] => (c, [])
  | k :: ks' =>
      let '(c1, r) := delete k c in
      let '(c2, errs) := deleteAll ks' c1 in
      (c2, reportOf r ++ errs)
  end.

Definition deleteMatching (P : authKey → authMapValue → bool)
    (c : authMapCache) : authMapCache * list Error :=
  deleteAll (entriesMatching P c).*1 c.

(** Calls on the cache, for statements about sequences of them. *)
Inductive Op :=
| OpSet (k : authKey) (v : authMapValue)
| OpDelete (k : authKey).

Definition applyOp (o : Op) (c : authMapCache) : authMapCache :=
  match o with
  | OpSet k v => (set k v c).1
  | OpDelete k => (delete k c).1
  end.

Definition applyOps (os : list Op) (c : authMapCache) : authMapCache :=
  foldl (λ c o, applyOp o c) c os.

End Ops.

(** The mirror agrees with the durable state. *)
Definition consistent (c : authMapCache) : Prop := mirror c = store c.

End AuthMapCache.

(** ** AuthHandler *)

Module AuthHandler.

(** Arguments of one [authenticate] call. *)
Record authRequest := mkRequest {
  reqLocalIdentity : Z;
  reqRemoteIdentity : Z;
  reqRemoteNodeID : Z;
  reqRemoteNodeIP : string
}.

(** A channel value; [chanCap] is the capacity it was made with. *)
Record Channel := mkChan {
  chanName : string;
  chanCap : Z
}.

#[global] Instance Channel_eq_dec : EqDecision Channel.
Proof. solve_decision. Defined.

(** The [authHandler] interface.  [authenticate] gets the time of the
    call and the request and answers with an expiration or an error;
    [subscribeToRotatedIdentities] is [None] for a handler without a
    rotation stream (a nil channel). *)
Record authHandler := mkHandler {
  authType : AuthType;
  authenticate : Z → authRequest → Result Z;
  subscribeToRotatedIdentities : option Channel
}.

(** Modelled from the spec: the always-fail variant; no handler body is in
    the wiring file.  It answers every request with an error. *)
Definition alwaysFailAuthHandler : authHandler :=
  mkHandler AuthTypeAlwaysFail
            (λ _ _, Err (ErrMsg "authenticate failed by always-fail handler"))
            None.

(** Modelled from the spec: the mutual-certificate variant; no handler
    body is in the wiring file.  The handshake is an external
    collaborator, taken as [handshake]; the variant exposes a rotation
    stream. *)
Definition mutualAuthHandler (handshake : Z → authRequest → Result Z)
    (rotated : Channel) : authHandler :=
  mkHandler AuthTypeMutual handshake (Some rotated).

End AuthHandler.

(** ** AuthManager *)

Module AuthManager.
Import AuthHandler AuthMapCache.

(** The manager as constructed: the handlers it was given and the IP
    cache collaborator that resolves a node to its address. *)
Record authManager := mkManager {
  handlers : list authHandler;
  nodeIP : Z → string
}.

(** One recorded invocation of a handler's [authenticate]. *)
Record Call := mkCall {
  callType : AuthType;
  callTime : Z;
  callRequest : authRequest
}.

(** What the manager and the garbage collector share: the cache, and for
    observation the log of [authenticate] invocations and of reported
    errors. *)
Record State := mkState {
  cache : authMapCache;
  authCalls : list Call;
  reported : list Error
}.

Definition resolve (hs : list authHandler) (ty : AuthType) : option authHandler :=
  find (λ h, bool_decide (authType h = ty)) hs.

Definition requestOf (mgr : authManager) (k : authKey) : authRequest :=
  mkRequest (localIdentity k) (remoteIdentity k) (remoteNodeID k)
            (nodeIP mgr (remoteNodeID k)).

(** A key references an identity on either side. *)
Definition refersTo (identity : Z) (k : authKey) : bool :=
  bool_decide (localIdentity k = identity) || bool_decide (remoteIdentity k = identity).

Section Ops.
Variable F : AuthMapStore.Faults.
Variable mgr : authManager.

Definition report (e : Error) (st : State) : State :=
  mkState (cache st) (authCalls st) (reported st ++ [e]).

Definition authenticateAndCache (now : Z) (sig : signalAuthKey) (st : State) : State :=
  match resolve (handlers mgr) (sigAuthType sig) with
  | None => report (ErrMsg "unknown requested auth type") st
  | Some h =>
      let req := requestOf mgr (sigKey sig) in
      let st1 := mkState (cache st)
                         (authCalls st ++ [mkCall (authType h) now req])
                         (reported st) in
      match authenticate h now req with
      | Err e => report (ErrWrap "failed to authenticate" e) st1
      | Ok exp =>
          let '(c', r) := set F (sigKey sig) (mkValue exp) (cache st1) in
          mkState c' (authCalls st1) (reported st1 ++ reportOf r)
      end
  end.

(** Modelled from the spec: [handleAuthRequest] is registered by the
    wiring file but its body is not there.  A live entry for the
    signal's key makes it a no-op; otherwise the handler of the
    signal's type authenticates and a success is cached. *)
Definition handleAuthRequest (now : Z) (sig : signalAuthKey) (st : State) : State :=
  match get (sigKey sig) (cache st) with
  | Some v => if live now v then st else authenticateAndCache now sig st
  | None => authenticateAndCache now sig st
  end.


End Ops.

End AuthManager.

(** ** AuthMapGarbageCollector *)

Module AuthMapGC.
Import AuthMapCache AuthManager.

(** A resource event; the collector reacts to deletions only. *)
Inductive EventKind :=
| Sync
| Upsert
| Delete.

Record Event := mkEvent {
  kind : EventKind;
  object : Z
}.

Section Ops.
Variable F : AuthMapStore.Faults.

Definition collect (P : authKey → authMapValue → bool) (st : State) : State :=
  let '(c', errs) := deleteMatching F P (cache st) in
  mkState c' (authCalls st) (reported st ++ errs).

(** Modelled from the spec: [CleanupExpiredEntries] is registered by the
    wiring file but its body is not there.  It deletes every cached
    entry whose expiration is at or before the current time. *)
Definition CleanupExpiredEntries (now : Z) (st : State) : State :=
  collect (λ _ v, expired now v) st.

(** Modelled from the spec: [handleCiliumIdentityEvent] is registered
    by the wiring file but its body is not there.  On a deletion it
    removes every cached entry with the identity on either side. *)
Definition handleCiliumIdentityEvent (ev : Event) (st : State) : State :=
  match kind ev with
  | Delete => collect (λ k _, refersTo (object ev) k) st
  | _ => st
  end.

(** Modelled from the spec: [handleCiliumNodeEvent] is registered by
    the wiring file but its body is not there.  On a deletion it
    removes every cached entry whose remote node is the deleted one. *)
Definition handleCiliumNodeEvent (ev : Event) (st : State) : State :=
  match kind ev with
  | Delete => collect (λ k _, bool_decide (remoteNodeID k = object ev)) st
  | _ => st
  end.

End Ops.

End AuthMapGC.

(** ** Collaborator packages used by the wiring *)

(** Package [job]: what a job group holds.  The functions handed to jobs
    are method values, so a manager method carries its manager. *)
Module job.
Import AuthHandler AuthManager.

Inductive Resource := mkResource (name : string).

Inductive Source :=
| FromChannel (ch : Channel)
| FromResource (r : Resource).

Inductive Func :=
| mgr_handleAuthRequest (mgr : authManager)
| mgr_handleCertificateRotationEvent (mgr : authManager)
| mapGC_handleCiliumIdentityEvent
| mapGC_handleCiliumNodeEvent
| mapGC_CleanupExpiredEntries.

Inductive Job :=
| Observer (name : string) (fn : Func) (src : Source)
| Timer (name : string) (fn : Func) (interval : Z).

(** The function a job invokes. *)
Definition fnOf (j : Job) : Func :=
  match j with
  | Observer _ fn _ => fn
  | Timer _ fn _ => fn
  end.

(** The job consumes auth-required signals from a channel. *)
Definition authJob (j : Job) : Prop :=
  match j with
  | Observer _ (mgr_handleAuthRequest _) (FromChannel _) => True
  | _ => False
  end.

(** Modelled from the spec: package [job] is not among the sources.
    [jobGroup.Add] puts one more job into the group. *)
Definition Add (g : list Job) (j : Job) : list Job := g ++ [j].

End job.

(** Package [signal]: the signal manager records which channel handles
    which signal; a registration can be refused. *)
Module signal.
Import AuthHandler.

Inductive SignalType :=
| SignalAuthRequired.

#[global] Instance SignalType_eq_dec : EqDecision SignalType.
Proof. solve_decision. Defined.

Record SignalManager := mkSignalManager {
  registerFault : option Error;
  registered : list (Channel * SignalType)
}.

(** Modelled from the spec: package [signal] is not among the sources.
    The manager registers its channel once at startup; the collaborator
    may refuse, which [registerFault] decides. *)
Definition RegisterHandler (sm : SignalManager) (ch : Channel) (sig : SignalType)
  : SignalManager * option Error :=
  match registerFault sm with
  | Some e => (sm, Some e)
  | None => (mkSignalManager None (registered sm ++ [(ch, sig)]), None)
  end.

End signal.

(** Package [hive]: a lifecycle is the list of appended hooks; a hook of
    another cell is known by the result of its start function only. *)
Module hive.

Inductive Hook :=
| restoreCacheHook
| jobGroupHook (jobs : list job.Job)
| foreignHook (name : string) (result : option Error).

(** Modelled from the spec: package [hive] is not among the sources.
    [Lifecycle.Append] puts the hook after those appended before. *)
Definition Append (lc : list Hook) (h : Hook) : list Hook := lc ++ [h].

Definition foreign (h : Hook) : Prop :=
  match h with
  | foreignHook _ _ => True
  | _ => False
  end.

(** A hook of another cell whose start succeeds. *)
Definition succeeds (h : Hook) : Prop :=
  match h with
  | foreignHook _ None => True
  | _ => False
  end.

End hive.

(** Package [cell]: the items of a module declaration. *)
Module cell.

Inductive Constructor :=
| newMutualAuthHandler
| newAlwaysFailAuthHandler
| k8s_CiliumNodeResource
| k8s_CiliumIdentityResource.

Inductive Item (C : Type) :=
| SubCell (name : string)
| Invoke (fn : string)
| ProvidePrivate (ctors : list Constructor)
| Config (defaults : C).
Arguments SubCell {C} name.
Arguments Invoke {C} fn.
Arguments ProvidePrivate {C} ctors.
Arguments Config {C} defaults.

Record ModuleDecl (C : Type) := Module_ {
  moduleID : string;
  moduleTitle : string;
  moduleItems : list (Item C)
}.
Arguments Module_ {C} _ _ _.
Arguments moduleItems {C} _.

End cell.

(** ** cell.go *)

Module Wiring.
Import AuthHandler AuthMapCache AuthManager.

(** [time.Duration] counts nanoseconds. *)
Definition Nanosecond : Z := 1.
Definition Microsecond : Z := 1000 * Nanosecond.
Definition Millisecond : Z := 1000 * Microsecond.
Definition Second : Z := 1000 * Millisecond.
Definition Minute : Z := 60 * Second.

Record config := mkConfig {
  MeshAuthQueueSize : Z;
  MeshAuthExpiredGCInterval : Z
}.

(** The two config structs the module registers defaults for; the fields
    of [MutualAuthConfig] are declared elsewhere. *)
Inductive ConfigDefaults :=
| AuthConfig (c : config)
| MutualAuthConfig.

Definition Cell : cell.ModuleDecl ConfigDefaults :=
  cell.Module_ "auth" "Authenticates requests as demanded by policy"
    [ cell.SubCell "spire.Cell";
      cell.Invoke "newManager";
      cell.ProvidePrivate [cell.newMutualAuthHandler; cell.newAlwaysFailAuthHandler];
      cell.ProvidePrivate [cell.k8s_CiliumNodeResource; cell.k8s_CiliumIdentityResource];
      cell.Config (AuthConfig (mkConfig 1024 (15 * Minute)));
      cell.Config MutualAuthConfig ].

Inductive FlagValue :=
| IntValue (n : Z)
| DurationValue (d : Z).

Record Flag := mkFlag {
  flagName : string;
  flagDefault : FlagValue;
  flagUsage : string
}.

Definition Flags (r : config) (flags : list Flag) : list Flag :=
  flags ++
  [ mkFlag "mesh-auth-queue-size" (IntValue (MeshAuthQueueSize r))
           "Queue size for the auth manager";
    mkFlag "mesh-auth-expired-gc-interval" (DurationValue (MeshAuthExpiredGCInterval r))
           "Interval in which expired auth entries are attempted to be garbage collected" ].

(** The injected parameters that the wiring reads.  A nil interface value
    is [None]. *)
Record authManagerParams := mkParams {
  Config : config;
  IPCache : Z → string;
  AuthHandlers : list (option authHandler);
  AuthMap : entries;
  CiliumIdentities : option job.Resource;
  CiliumNodes : option job.Resource
}.

(** What [newManager] mutates: the lifecycle and the signal manager. *)
Record World := mkWorld {
  Lifecycle : list hive.Hook;
  SignalManager : signal.SignalManager
}.

Inductive Outcome :=
| Done
| Failed (e : Error)
| Panicked (msg : string).

(** [make(chan signalAuthKey, n)]: a negative size panics, and so does a
    size beyond what the runtime can allocate for the element type.  That
    bound depends on the element size and the platform, which the wiring
    file does not fix; it is [limit]. *)
Definition make_chan (limit : Z) (name : string) (n : Z) : option Channel :=
  if (n <? 0)%Z || (limit <? n)%Z then None else Some (mkChan name n).

(** Modelled from the spec: [newAuthManager] is called by the wiring but
    its body is not in the wiring file.  It keeps the handlers it was given
    (nil ones apart) and the IP cache; [fault] is its error, if any. *)
Definition newAuthManager (fault : option Error)
    (authHandlers : list (option authHandler)) (ipCache : Z → string)
  : Result authManager :=
  match fault with
  | Some e => Err e
  | None => Ok (mkManager (omap id authHandlers) ipCache)
  end.

Definition registerReAuthenticationJob (jobGroup : list job.Job) (mgr : authManager)
    (authHandlers : list (option authHandler)) : list job.Job :=
  foldl (λ g ah,
           match ah with
           | Some h =>
               match subscribeToRotatedIdentities h with
               | Some ch =>
                   job.Add g (job.Observer "auth re-authentication"
                                (job.mgr_handleCertificateRotationEvent mgr)
                                (job.FromChannel ch))
               | None => g
               end
           | None => g
           end) jobGroup authHandlers.

Definition registerSignalAuthenticationJob (limit : Z) (jobGroup : list job.Job)
    (mgr : authManager) (sm : signal.SignalManager) (config : config)
  : list job.Job * signal.SignalManager * Outcome :=
  match make_chan limit "signalChannel" (MeshAuthQueueSize config) with
  | None => (jobGroup, sm, Panicked "makechan: size out of range")
  | Some signalChannel =>
      match signal.RegisterHandler sm signalChannel signal.SignalAuthRequired with
      | (sm', Some err) =>
          (jobGroup, sm',
           Failed (ErrWrap "failed to set up signal channel for datapath authentication required events" err))
      | (sm', None) =>
          (job.Add jobGroup (job.Observer "auth request processing"
                               (job.mgr_handleAuthRequest mgr)
                               (job.FromChannel signalChannel)),
           sm', Done)
      end
  end.

Definition registerGCJobs (jobGroup : list job.Job) (params : authManagerParams)
  : list job.Job :=
  let g1 :=
    match CiliumIdentities params with
    | Some r => job.Add jobGroup (job.Observer "auth identities gc"
                                    job.mapGC_handleCiliumIdentityEvent (job.FromResource r))
    | None => jobGroup
    end in
  let g2 :=
    match CiliumNodes params with
    | Some r => job.Add g1 (job.Observer "auth nodes gc"
                              job.mapGC_handleCiliumNodeEvent (job.FromResource r))
    | None => g1
    end in
  job.Add g2 (job.Timer "auth expiration gc" job.mapGC_CleanupExpiredEntries
                (MeshAuthExpiredGCInterval (Config params))).

Definition newManager (limit : Z) (fault : option Error) (params : authManagerParams)
    (w : World) : World * Outcome :=
  let lc1 := hive.Append (Lifecycle w) hive.restoreCacheHook in
  let jobGroup : list job.Job := [] in
  match newAuthManager fault (AuthHandlers params) (IPCache params) with
  | Err err =>
      (mkWorld lc1 (SignalManager w), Failed (ErrWrap "failed to create auth manager" err))
  | Ok mgr =>
      match registerSignalAuthenticationJob limit jobGroup mgr (SignalManager w)
                                            (Config params) with
      | (_, sm, Panicked msg) => (mkWorld lc1 sm, Panicked msg)
      | (_, sm, Failed err) =>
          (mkWorld lc1 sm, Failed (ErrWrap "failed to register signal authentication job" err))
      | (g1, sm, Done) =>
          let g2 := registerReAuthenticationJob g1 mgr (AuthHandlers params) in
          let g3 := registerGCJobs g2 params in
          (mkWorld (hive.Append lc1 (hive.jobGroupHook g3)) sm, Done)
      end
  end.

(** The constructors a module provides and the defaults of [config] it
    declares. *)
Definition providedConstructors (m : cell.ModuleDecl ConfigDefaults) : list cell.Constructor :=
  mjoin (omap (λ it, match it with cell.ProvidePrivate cs => Some cs | _ => None end)
              (cell.moduleItems m)).

Definition configDefaults (m : cell.ModuleDecl ConfigDefaults) : list config :=
  omap (λ it, match it with cell.Config (AuthConfig c) => Some c | _ => None end)
       (cell.moduleItems m).

End Wiring.

(** ** The running system *)

Module System.
Import AuthHandler AuthMapCache AuthManager.

Inductive Phase :=
| Starting
| Started
| Aborted (e : Error).

(** What an execution leaves in its trace: the cache restore completed, or
    the manager handled a signal. *)
Inductive Event :=
| EvRestored
| EvHandled (now : Z) (sig : signalAuthKey).

(** What moves the system: the lifecycle starts its next hook, or the
    datapath raises a signal at some time. *)
Inductive Input :=
| Tick
| Signal (now : Z) (sig : signalAuthKey).

Record System := mkSystem {
  pending : list hive.Hook;
  phase : Phase;
  running : list job.Job;
  state : State;
  trace : list Event
}.

(** Before start: nothing runs and the cache, made over the auth map, has
    an empty mirror. *)
Definition boot (lc : list hive.Hook) (authMap : entries) : System :=
  mkSystem lc Starting [] (mkState (mkCache ∅ authMap) [] []) [].

Section Run.
Variable F : AuthMapStore.Faults.
Variable sm : signal.SignalManager.

(** Modelled from the spec: the lifecycle of package [hive] is not among
    the sources.  Start hooks run one at a time in the order they were
    appended, and the first error aborts startup with that error. *)
Definition startHook (h : hive.Hook) (s : System) : System :=
  match h with
  | hive.restoreCacheHook =>
      match restoreCache F (cache (state s)) with
      | (c, None) =>
          mkSystem (pending s) (phase s) (running s)
                   (mkState c (authCalls (state s)) (reported (state s)))
                   (trace s ++ [EvRestored])
      | (_, Some err) =>
          mkSystem (pending s)
                   (Aborted (ErrWrap "failed to restore auth map cache" err))
                   (running s) (state s) (trace s)
      end
  | hive.jobGroupHook jobs =>
      mkSystem (pending s) (phase s) (running s ++ jobs) (state s) (trace s)
  | hive.foreignHook _ (Some err) =>
      mkSystem (pending s) (Aborted err) (running s) (state s) (trace s)
  | hive.foreignHook _ None => s
  end.

Definition tick (s : System) : System :=
  match phase s, pending s with
  | Starting, [] => mkSystem [] Started (running s) (state s) (trace s)
  | Starting, h :: rest =>
      startHook h (mkSystem rest Starting (running s) (state s) (trace s))
  | _, _ => s
  end.

(** Modelled from the spec: the observer of package [job] is not among
    the sources.  A running observer whose stream is a channel registered
    for the auth-required signal gets every raised signal. *)
Definition observe (now : Z) (sig : signalAuthKey) (acc : State * list Event)
    (j : job.Job) : State * list Event :=
  match j with
  | job.Observer _ (job.mgr_handleAuthRequest mgr) (job.FromChannel ch) =>
      if bool_decide ((ch, signal.SignalAuthRequired) ∈ signal.registered sm)
      then (handleAuthRequest F mgr now sig acc.1, acc.2 ++ [EvHandled now sig])
      else acc
  | _ => acc
  end.

Definition raise (now : Z) (sig : signalAuthKey) (s : System) : System :=
  let '(st, tr) := foldl (observe now sig) (state s, trace s) (running s) in
  mkSystem (pending s) (phase s) (running s) st tr.

Definition step (s : System) (i : Input) : System :=
  match i with
  | Tick => tick s
  | Signal now sig => raise now sig s
  end.

Definition run (inputs : list Input) (s : System) : System :=
  foldl step s inputs.

End Run.

(** Every handled signal in a trace comes after the restore. *)
Definition restoreFirst (tr : list Event) : Prop :=
  ∀ before now sig after,
    tr = before ++ EvHandled now sig :: after → EvRestored ∈ before.

(** In a list of hooks still to start, a job group that consumes signals
    comes behind the restore hook, unless [R] (the restore is done). *)
Fixpoint guarded (R : Prop) (hooks : list hive.Hook) : Prop :=
  match hooks with
  | [] => True
  | hive.restoreCacheHook :: _ => True
  | hive.jobGroupHook jobs :: rest => (Exists job.authJob jobs → R) ∧ guarded R rest
  | hive.foreignHook _ _ :: rest => guarded R rest
  end.

(** What every reachable system state satisfies. *)
Record Inv (s : System) : Prop := mkInv {
  inv_order : restoreFirst (trace s);
  inv_running : Exists job.authJob (running s) → EvRestored ∈ trace s;
  inv_pending : phase s = Starting → guarded (EvRestored ∈ trace s) (pending s)
}.

(** How many hook starts a schedule holds. *)
Fixpoint ticks (inputs : list Input) : nat :=
  match inputs with
  | [] => 0
  | Tick :: rest => S (ticks rest)
  | Signal _ _ :: rest => ticks rest
  end.

End System.

(** ** Concrete inputs used by the examples *)

Module Scenario.
Import AuthHandler AuthMapCache AuthManager.

Definition keyA : authKey := mkAuthKey 100 200 7.
Definition keyB : authKey := mkAuthKey 300 400 9.
Definition keyC : authKey := mkAuthKey 200 500 7.

(** A consistent cache with [keyA] valid until 600 and [keyB] until 50. *)
Definition twoEntries : entries :=
  <[keyA := mkValue 600]> (<[keyB := mkValue 50]> ∅).
Definition cache2 : authMapCache := mkCache twoEntries twoEntries.

(** A mutual handler whose handshake grants 600 seconds. *)
Definition rotations : Channel := mkChan "rotatedIdentities" 0.
Definition mutual600 : authHandler :=
  mutualAuthHandler (λ now _, Ok (now + 600)%Z) rotations.

Definition manager : authManager :=
  mkManager [mutual600; alwaysFailAuthHandler] (λ _, "10.0.0.7").

Definition signalA : signalAuthKey := mkSignal keyA AuthTypeMutual.
Definition signalFail : signalAuthKey := mkSignal keyA AuthTypeAlwaysFail.

Definition emptyState : State := mkState (mkCache ∅ ∅) [] [].
Definition state2 : State := mkState cache2 [] [].

(** The injected parameters of a node without Kubernetes resources, the
    world before [newManager] with one hook of another cell, and a
    schedule that raises the signal before, during and after startup. *)
Definition params : Wiring.authManagerParams :=
  Wiring.mkParams (Wiring.mkConfig 1024 (15 * Wiring.Minute)) (λ _, "10.0.0.7")
                  [Some mutual600; None; Some alwaysFailAuthHandler]
                  twoEntries None None.

Definition world : Wiring.World :=
  Wiring.mkWorld [hive.foreignHook "signal manager" None]
                 (signal.mkSignalManager None []).

Definition later : list hive.Hook := [hive.foreignHook "daemon" None].

(** The largest channel capacity of a runtime that can allocate 2^48 bytes
    for channels of 12-byte elements behind a 96-byte header. *)
Definition chanLimit : Z := (2 ^ 48 - 96) / 12.

Definition schedule : list System.Input :=
  [ System.Signal 10 signalA; System.Tick; System.Tick;
    System.Signal 20 signalA; System.Tick;
    System.Signal 700 signalA; System.Tick; System.Tick ].

End Scenario.

(** ** What the wiring builds, named *)

Module Shape.
Import AuthHandler AuthManager.

Definition isDone (o : Wiring.Outcome) : bool :=
  match o with
  | Wiring.Done => true
  | _ => false
  end.

Definition nameOf (j : job.Job) : string :=
  match j with
  | job.Observer name _ _ => name
  | job.Timer name _ _ => name
  end.

(** The rotation channels of a handler list, in order: a nil handler and a
    handler with a nil channel give none. *)
Definition rotationChannels (hs : list (option authHandler)) : list Channel :=
  omap (λ ah, ah ≫= subscribeToRotatedIdentities) hs.

Definition rotationObserver (mgr : authManager) (ch : Channel) : job.Job :=
  job.Observer "auth re-authentication"
               (job.mgr_handleCertificateRotationEvent mgr) (job.FromChannel ch).

Definition signalChannel (params : Wiring.authManagerParams) : Channel :=
  mkChan "signalChannel" (Wiring.MeshAuthQueueSize (Wiring.Config params)).

Definition managerOf (params : Wiring.authManagerParams) : authManager :=
  mkManager (omap id (Wiring.AuthHandlers params)) (Wiring.IPCache params).

(** How many of the two Kubernetes resources are there. *)
Definition resources (params : Wiring.authManagerParams) : nat :=
  (if Wiring.CiliumIdentities params is Some _ then 1 else 0) +
  (if Wiring.CiliumNodes params is Some _ then 1 else 0).

(** The jobs of a complete job group: the request observer, one rotation
    observer per rotation channel, then the GC jobs. *)
Definition jobGroup (params : Wiring.authManagerParams) : list job.Job :=
  job.Observer "auth request processing"
               (job.mgr_handleAuthRequest (managerOf params))
               (job.FromChannel (signalChannel params))
  :: (rotationObserver (managerOf params) <$> rotationChannels (Wiring.AuthHandlers params))
  ++ Wiring.registerGCJobs [] params.

End Shape.

(** * Properties *)

Import AuthHandler AuthMapCache AuthManager.

(** ** Cache: write-through *)

Lemma set_store_fails F k v c e :
  AuthMapStore.update F k v (store c) = Err e → set F k v c = (c, Some e).
Proof. unfold set. by intros ->. Qed.

Lemma set_store_succeeds F k v c s' :
  AuthMapStore.update F k v (store c) = Ok s' →
  set F k v c = (mkCache (<[k := v]> (mirror c)) s', None).
Proof. unfold set. by intros ->. Qed.

Lemma delete_store_fails F k c e :
  AuthMapStore.delete F k (store c) = Err e → delete F k c = (c, Some e).
Proof. unfold delete. by intros ->. Qed.

Lemma delete_store_succeeds F k c s' :
  AuthMapStore.delete F k (store c) = Ok s' →
  delete F k c = (mkCache (base.delete k (mirror c)) s', None).
Proof. unfold delete. by intros ->. Qed.

Lemma set_consistent F k v c : consistent c → consistent (set F k v c).1.
Proof.
  unfold consistent, set, AuthMapStore.update.
  destruct (AuthMapStore.updateFault F k v (store c)); simpl; [done|].
  by intros ->.
Qed.

Lemma delete_consistent F k c : consistent c → consistent (delete F k c).1.
Proof.
  unfold consistent, delete, AuthMapStore.delete.
  destruct (AuthMapStore.deleteFault F k (store c)); simpl; [done|].
  by intros ->.
Qed.

Lemma applyOps_consistent F os c : consistent c → consistent (applyOps F os c).
Proof.
  unfold applyOps. revert c.
  induction os as [|o os IH]; intros c Hc; simpl; [done|].
  apply IH. destruct o; simpl; [by apply set_consistent | by apply delete_consistent].
Qed.

(** A restore that succeeds makes the mirror the store's content, whatever
    the mirror held and in whatever order the store enumerates. *)
Lemma restoreCache_mirror F c c' :
  restoreCache F c = (c', None) → mirror c' = store c ∧ store c' = store c.
Proof.
  unfold restoreCache, AuthMapStore.all.
  destruct (AuthMapStore.allFault F (store c)); intros [= <-]; simpl.
  by rewrite list_to_map_to_list.
Qed.


(** ** Cache: deleting a snapshot of keys *)




Lemma deleteAll_consistent F ks : ∀ c c' errs,
  deleteAll F ks c = (c', errs) → consistent c → consistent c'.
Proof.
  induction ks as [|k0 ks IH]; intros c c' errs Hrun Hc; simpl in Hrun.
  - by inversion Hrun; subst.
  - destruct (delete F k0 c) as [c1 r] eqn:Hd.
    destruct (deleteAll F ks c1) as [c2 errs2] eqn:Hrest.
    inversion Hrun; subst; clear Hrun.
    eapply IH; [done|].
    replace c1 with (delete F k0 c).1 by (by rewrite Hd).
    by apply delete_consistent.
Qed.






(** C2: [set] writes the store first and touches the mirror only when the
    store accepted the write; when the store fails, [set] returns the
    store's error and the cache is as before.  [delete] is symmetric.  So
    after any sequence of calls a mirror that agreed with the store still
    agrees with it. *)
Theorem set_writes_store_first F k v c :
  (∀ e, AuthMapStore.update F k v (store c) = Err e →
        set F k v c = (c, Some e)) ∧
  (∀ s', AuthMapStore.update F k v (store c) = Ok s' →
         set F k v c = (mkCache (<[k := v]> (mirror c)) s', None)) ∧
  (∀ e, AuthMapStore.delete F k (store c) = Err e →
        delete F k c = (c, Some e)) ∧
  (∀ s', AuthMapStore.delete F k (store c) = Ok s' →
         delete F k c = (mkCache (base.delete k (mirror c)) s', None)) ∧
  (∀ os, consistent c → consistent (applyOps F os c)).
Proof.
  repeat split.
  - intros e. apply set_store_fails.
  - intros s'. apply set_store_succeeds.
  - intros e. apply delete_store_fails.
  - intros s'. apply delete_store_succeeds.
  - intros os. apply applyOps_consistent.
Qed.

Lemma set_writes_store_first_witness :
  set AuthMapStore.broken Scenario.keyC (mkValue 900) Scenario.cache2
    = (Scenario.cache2, Some (ErrMsg "update: i/o error")) ∧
  delete AuthMapStore.broken Scenario.keyA Scenario.cache2
    = (Scenario.cache2, Some (ErrMsg "delete: i/o error")) ∧
  consistent (applyOps AuthMapStore.reliable
                [OpSet Scenario.keyC (mkValue 900); OpDelete Scenario.keyA]
                Scenario.cache2).
Proof.
  destruct (set_writes_store_first AuthMapStore.broken Scenario.keyC
              (mkValue 900) Scenario.cache2) as (Hset & _).
  destruct (set_writes_store_first AuthMapStore.broken Scenario.keyA
              (mkValue 900) Scenario.cache2) as (_ & _ & Hdel & _).
  destruct (set_writes_store_first AuthMapStore.reliable Scenario.keyA
              (mkValue 900) Scenario.cache2) as (_ & _ & _ & _ & Hops).
  split; [apply Hset; reflexivity|].
  split; [apply Hdel; reflexivity|].
  apply Hops. reflexivity.
Defined.

(** ** Garbage collection *)

Lemma app_self_nil {A} (l e : list A) : l ++ e = l → e = [].
Proof.
  intros H. apply (app_inv_head l). by rewrite app_nil_r.
Qed.

Lemma collect_run F P st :
  ∃ c' errs, deleteMatching F P (cache st) = (c', errs) ∧
             AuthMapGC.collect F P st = mkState c' (authCalls st) (reported st ++ errs).
Proof.
  unfold AuthMapGC.collect.
  destruct (deleteMatching F P (cache st)) as [c' errs]. eauto.
Qed.




Lemma collect_consistent F P st :
  consistent (cache st) → consistent (cache (AuthMapGC.collect F P st)).
Proof.
  destruct (collect_run F P st) as (c' & errs & Hrun & ->). simpl.
  by eapply deleteAll_consistent.
Qed.




Lemma delete_absent_noop F k c :
  AuthMapStore.deleteFault F k (store c) = None →
  mirror c !! k = None → store c !! k = None →
  delete F k c = (c, None).
Proof.
  intros Hf Hm Hs. unfold delete, AuthMapStore.delete. rewrite Hf.
  rewrite !delete_id by done. by destruct c.
Qed.








(** Events other than deletions leave the collector idle. *)
Lemma gc_ignores_other_events F ev st :
  AuthMapGC.kind ev ≠ AuthMapGC.Delete →
  AuthMapGC.handleCiliumIdentityEvent F ev st = st ∧
  AuthMapGC.handleCiliumNodeEvent F ev st = st.
Proof.
  unfold AuthMapGC.handleCiliumIdentityEvent, AuthMapGC.handleCiliumNodeEvent.
  by destruct (AuthMapGC.kind ev).
Qed.




(** ** Manager *)

Lemma resolve_type hs ty h : resolve hs ty = Some h → authType h = ty ∧ h ∈ hs.
Proof.
  unfold resolve. intros Hf. apply find_some in Hf as [Hin Hty].
  apply bool_decide_eq_true in Hty. split; [done|]. by apply list_elem_of_In.
Qed.

Lemma handleAuthRequest_live F mgr now sig st v :
  get (sigKey sig) (cache st) = Some v → (now < expiration v)%Z →
  handleAuthRequest F mgr now sig st = st.
Proof.
  intros Hget Hlt. unfold handleAuthRequest. rewrite Hget.
  unfold live. by rewrite (proj2 (Z.ltb_lt _ _) Hlt).
Qed.

Lemma handleAuthRequest_not_live F mgr now sig st :
  (get (sigKey sig) (cache st) = None ∨
   ∃ v, get (sigKey sig) (cache st) = Some v ∧ (expiration v ≤ now)%Z) →
  handleAuthRequest F mgr now sig st = authenticateAndCache F mgr now sig st.
Proof.
  unfold handleAuthRequest. intros [->|(v & -> & Hle)]; [done|].
  unfold live. by rewrite (proj2 (Z.ltb_ge _ _) Hle).
Qed.

Lemma authenticateAndCache_calls F mgr now sig st h :
  resolve (handlers mgr) (sigAuthType sig) = Some h →
  authCalls (authenticateAndCache F mgr now sig st) =
  authCalls st ++ [mkCall (authType h) now (requestOf mgr (sigKey sig))].
Proof.
  intros Hres. unfold authenticateAndCache. rewrite Hres.
  destruct (authenticate h now _); simpl; [|done].
  by destruct (set F _ _ _).
Qed.

(** C1: with a live entry for the signal's key, [handleAuthRequest] returns
    the state it was given: no [authenticate] call is recorded and the
    cache is unchanged.  Without one (no entry, or an expired one) it
    invokes [authenticate] of the handler resolved for the signal's auth
    type, once; on success the cache is the result of [set] with the
    returned expiration, and on failure the cache is unchanged. *)
Theorem handleAuthRequest_contract F mgr now sig st :
  let st' := handleAuthRequest F mgr now sig st in
  let req := requestOf mgr (sigKey sig) in
  (∀ v, get (sigKey sig) (cache st) = Some v → (now < expiration v)%Z →
        st' = st) ∧
  ((get (sigKey sig) (cache st) = None ∨
    ∃ v, get (sigKey sig) (cache st) = Some v ∧ (expiration v ≤ now)%Z) →
   ∀ h, resolve (handlers mgr) (sigAuthType sig) = Some h →
        authType h = sigAuthType sig ∧
        authCalls st' = authCalls st ++ [mkCall (sigAuthType sig) now req] ∧
        (∀ exp, authenticate h now req = Ok exp →
                cache st' = (set F (sigKey sig) (mkValue exp) (cache st)).1 ∧
                reported st' =
                  reported st ++ reportOf (set F (sigKey sig) (mkValue exp) (cache st)).2) ∧
        (∀ e, authenticate h now req = Err e → cache st' = cache st)).
Proof.
  intros st' req. subst st' req. split.
  - intros v. apply handleAuthRequest_live.
  - intros Hnot h Hres. rewrite (handleAuthRequest_not_live _ _ _ _ _ Hnot).
    destruct (resolve_type _ _ _ Hres) as [Hty _].
    split; [done|]. split; [|split].
    + rewrite <- Hty. by apply authenticateAndCache_calls.
    + intros exp Hok. unfold authenticateAndCache. rewrite Hres, Hok. simpl.
      by destruct (set F _ _ _).
    + intros e Herr. unfold authenticateAndCache. by rewrite Hres, Herr.
Qed.

Lemma handleAuthRequest_contract_witness :
  handleAuthRequest AuthMapStore.reliable Scenario.manager 100 Scenario.signalA
    Scenario.state2 = Scenario.state2 ∧
  authCalls (handleAuthRequest AuthMapStore.reliable Scenario.manager 600
               Scenario.signalA Scenario.state2)
    = [mkCall AuthTypeMutual 600 (mkRequest 100 200 7 "10.0.0.7")] ∧
  mirror (cache (handleAuthRequest AuthMapStore.reliable Scenario.manager 600
                   Scenario.signalA Scenario.state2)) !! Scenario.keyA
    = Some (mkValue 1200) ∧
  cache (handleAuthRequest AuthMapStore.reliable Scenario.manager 600
           Scenario.signalFail Scenario.state2) = Scenario.cache2.
Proof.
  destruct (handleAuthRequest_contract AuthMapStore.reliable Scenario.manager 100
              Scenario.signalA Scenario.state2) as (Hlive & _).
  destruct (handleAuthRequest_contract AuthMapStore.reliable Scenario.manager 600
              Scenario.signalA Scenario.state2) as (_ & Hauth).
  destruct (handleAuthRequest_contract AuthMapStore.reliable Scenario.manager 600
              Scenario.signalFail Scenario.state2) as (_ & Hfail).
  assert (Hexpired :
    get Scenario.keyA Scenario.cache2 = None ∨
    ∃ v, get Scenario.keyA Scenario.cache2 = Some v ∧ (expiration v ≤ 600)%Z).
  { right. exists (mkValue 600). split; [reflexivity | simpl; lia]. }
  destruct (Hauth Hexpired Scenario.mutual600 eq_refl) as (_ & Hcalls & Hok & _).
  destruct (Hfail Hexpired alwaysFailAuthHandler eq_refl) as (_ & _ & _ & Herr).
  split; [|split; [|split]].
  - apply (Hlive (mkValue 600)); [reflexivity | simpl; lia].
  - exact Hcalls.
  - destruct (Hok 1200%Z eq_refl) as [-> _]. reflexivity.
  - exact (Herr _ eq_refl).
Defined.

(** Without a handler for the signal's type nothing is invoked and the
    cache stays as it is; the dispatch error is reported. *)
Lemma handleAuthRequest_no_handler F mgr now sig st :
  resolve (handlers mgr) (sigAuthType sig) = None →
  cache (handleAuthRequest F mgr now sig st) = cache st ∧
  authCalls (handleAuthRequest F mgr now sig st) = authCalls st.
Proof.
  intros Hres. unfold handleAuthRequest, authenticateAndCache. rewrite Hres.
  destruct (get _ _) as [v|]; [destruct (live now v)|]; done.
Qed.





(** ** Wiring: configuration, handlers and GC jobs *)

Lemma make_chan_capacity limit name n :
  (0 ≤ n ≤ limit)%Z → Wiring.make_chan limit name n = Some (mkChan name n).
Proof.
  intros [Hn Hl]. unfold Wiring.make_chan.
  by rewrite (proj2 (Z.ltb_ge _ _) Hn), (proj2 (Z.ltb_ge _ _) Hl).
Qed.

Lemma make_chan_out_of_range limit name n :
  (n < 0 ∨ limit < n)%Z → Wiring.make_chan limit name n = None.
Proof.
  intros Hn. unfold Wiring.make_chan.
  destruct (Z.ltb_spec n 0), (Z.ltb_spec limit n); simpl; try done. lia.
Qed.

(** A queue size that [make] refuses, negative or beyond the runtime's
    limit, makes the channel creation panic. *)
Lemma registerSignalAuthenticationJob_negative limit g mgr sm config :
  (Wiring.MeshAuthQueueSize config < 0 ∨ limit < Wiring.MeshAuthQueueSize config)%Z →
  Wiring.registerSignalAuthenticationJob limit g mgr sm config
    = (g, sm, Wiring.Panicked "makechan: size out of range").
Proof.
  intros Hn. unfold Wiring.registerSignalAuthenticationJob.
  by rewrite make_chan_out_of_range.
Qed.

(** C8: the module declares the defaults 1024 for the queue size and 15
    minutes for the expired-entry GC interval; [config] exposes exactly the
    two flags for them, with the config's values as defaults; and for a
    queue size that [make] accepts (not negative and within the runtime's
    limit), the signal channel is made with the configured capacity,
    registered for the auth-required signal, and it is the channel the
    request-processing observer reads. *)
Theorem config_defaults_and_queue_capacity :
  Wiring.configDefaults Wiring.Cell = [Wiring.mkConfig 1024 (15 * Wiring.Minute)] ∧
  Wiring.Minute = (60 * 1000000000)%Z ∧
  (∀ r, Wiring.flagName <$> Wiring.Flags r []
        = ["mesh-auth-queue-size"; "mesh-auth-expired-gc-interval"] ∧
        Wiring.flagDefault <$> Wiring.Flags r []
        = [Wiring.IntValue (Wiring.MeshAuthQueueSize r);
           Wiring.DurationValue (Wiring.MeshAuthExpiredGCInterval r)]) ∧
  (∀ limit g mgr sm config,
     (0 ≤ Wiring.MeshAuthQueueSize config ≤ limit)%Z →
     signal.registerFault sm = None →
     ∃ ch, chanCap ch = Wiring.MeshAuthQueueSize config ∧
           Wiring.registerSignalAuthenticationJob limit g mgr sm config =
           (g ++ [job.Observer "auth request processing"
                    (job.mgr_handleAuthRequest mgr) (job.FromChannel ch)],
            signal.mkSignalManager None
              (signal.registered sm ++ [(ch, signal.SignalAuthRequired)]),
            Wiring.Done)).
Proof.
  split; [reflexivity|]. split; [reflexivity|]. split; [by intros r|].
  intros limit g mgr sm config Hcap Hreg.
  exists (mkChan "signalChannel" (Wiring.MeshAuthQueueSize config)).
  split; [done|].
  unfold Wiring.registerSignalAuthenticationJob.
  rewrite make_chan_capacity by done.
  unfold signal.RegisterHandler. by rewrite Hreg.
Qed.

Lemma config_defaults_and_queue_capacity_witness :
  ∃ ch, chanCap ch = 1024%Z ∧
        Wiring.registerSignalAuthenticationJob Scenario.chanLimit [] Scenario.manager
          (signal.mkSignalManager None []) (Wiring.mkConfig 1024 900000000000) =
        ([job.Observer "auth request processing"
            (job.mgr_handleAuthRequest Scenario.manager) (job.FromChannel ch)],
         signal.mkSignalManager None [(ch, signal.SignalAuthRequired)],
         Wiring.Done).
Proof.
  destruct config_defaults_and_queue_capacity as (_ & _ & _ & Hq).
  apply (Hq Scenario.chanLimit [] Scenario.manager (signal.mkSignalManager None [])
            (Wiring.mkConfig 1024 900000000000)); [vm_compute; split; discriminate | reflexivity].
Defined.

(** [registerGCJobs] appends to the group it is given. *)
Lemma registerGCJobs_app g params :
  Wiring.registerGCJobs g params = g ++ Wiring.registerGCJobs [] params.
Proof.
  unfold Wiring.registerGCJobs, job.Add.
  destruct (Wiring.CiliumIdentities params), (Wiring.CiliumNodes params);
    simpl; by rewrite <- ?app_assoc.
Qed.

(** What [registerGCJobs] adds. *)
Lemma registerGCJobs_added params :
  let added := Wiring.registerGCJobs [] params in
  ((∃ j, j ∈ added ∧ job.fnOf j = job.mapGC_handleCiliumIdentityEvent)
     ↔ Wiring.CiliumIdentities params ≠ None) ∧
  ((∃ j, j ∈ added ∧ job.fnOf j = job.mapGC_handleCiliumNodeEvent)
     ↔ Wiring.CiliumNodes params ≠ None) ∧
  (∀ r, Wiring.CiliumIdentities params = Some r →
        job.Observer "auth identities gc" job.mapGC_handleCiliumIdentityEvent
          (job.FromResource r) ∈ added) ∧
  (∀ r, Wiring.CiliumNodes params = Some r →
        job.Observer "auth nodes gc" job.mapGC_handleCiliumNodeEvent
          (job.FromResource r) ∈ added) ∧
  job.Timer "auth expiration gc" job.mapGC_CleanupExpiredEntries
    (Wiring.MeshAuthExpiredGCInterval (Wiring.Config params)) ∈ added ∧
  (Wiring.CiliumIdentities params = None → Wiring.CiliumNodes params = None →
   added = [job.Timer "auth expiration gc" job.mapGC_CleanupExpiredEntries
              (Wiring.MeshAuthExpiredGCInterval (Wiring.Config params))]).
Proof.
  unfold Wiring.registerGCJobs, job.Add.
  destruct (Wiring.CiliumIdentities params) as [ri|];
    destruct (Wiring.CiliumNodes params) as [rn|]; simpl;
    repeat split; try done;
    try (intros _; eexists; split; [|reflexivity]; set_solver);
    try (intros (j & Hj & Hfn) _; set_unfold; destruct Hj as [->|Hj];
         try discriminate Hfn; try destruct Hj as [->|Hj]; try discriminate Hfn;
         try destruct Hj as [->|Hj]; try discriminate Hfn; done);
    try (intros r [= <-]; set_solver);
    try set_solver.
Qed.

(** Every handler with a rotation channel gets an observer running the
    manager's rotation handler; nothing else is added. *)
Lemma registerReAuthenticationJob_added mgr hs : ∀ g,
  ∃ added,
    Wiring.registerReAuthenticationJob g mgr hs = g ++ added ∧
    Forall (λ j, job.fnOf j = job.mgr_handleCertificateRotationEvent mgr) added ∧
    (∀ h ch, Some h ∈ hs → subscribeToRotatedIdentities h = Some ch →
             job.Observer "auth re-authentication"
               (job.mgr_handleCertificateRotationEvent mgr) (job.FromChannel ch) ∈ added).
Proof.
  unfold Wiring.registerReAuthenticationJob.
  induction hs as [|ah hs IH]; intros g; simpl.
  - exists []. rewrite app_nil_r. repeat split; [constructor|].
    by intros h ch H%elem_of_nil.
  - destruct ah as [h0|]; [destruct (subscribeToRotatedIdentities h0) as [ch0|] eqn:Hsub|].
    + destruct (IH (job.Add g (job.Observer "auth re-authentication"
                                 (job.mgr_handleCertificateRotationEvent mgr)
                                 (job.FromChannel ch0)))) as (added & -> & Hall & Hin).
      eexists (_ :: added). unfold job.Add. rewrite <- app_assoc.
      split; [reflexivity|]. split; [by constructor|].
      intros h ch [[= <-]|Hh]%elem_of_cons Hch.
      * rewrite Hsub in Hch. injection Hch as <-. by left.
      * right. by eapply Hin.
    + destruct (IH g) as (added & -> & Hall & Hin). exists added.
      repeat split; [done|].
      intros h ch [[= <-]|Hh]%elem_of_cons Hch; [congruence|by eapply Hin].
    + destruct (IH g) as (added & -> & Hall & Hin). exists added.
      repeat split; [done|].
      intros h ch [[=]|Hh]%elem_of_cons Hch. by eapply Hin.
Qed.

(** The job group [newManager] hands to the lifecycle: the signal
    observer, the rotation observers, then the GC jobs. *)
Lemma newManager_jobs limit fault params w w' :
  Wiring.newManager limit fault params w = (w', Wiring.Done) →
  ∃ mgr ch reauth,
    Wiring.Lifecycle w' =
      Wiring.Lifecycle w ++
      [hive.restoreCacheHook;
       hive.jobGroupHook
         (job.Observer "auth request processing" (job.mgr_handleAuthRequest mgr)
                       (job.FromChannel ch)
          :: reauth ++ Wiring.registerGCJobs [] params)] ∧
    (ch, signal.SignalAuthRequired) ∈ signal.registered (Wiring.SignalManager w') ∧
    chanCap ch = Wiring.MeshAuthQueueSize (Wiring.Config params) ∧
    Forall (λ j, job.fnOf j = job.mgr_handleCertificateRotationEvent mgr) reauth.
Proof.
  unfold Wiring.newManager, hive.Append.
  destruct (Wiring.newAuthManager _ _ _) as [mgr|err]; [|by intros [= _ ?]].
  unfold Wiring.registerSignalAuthenticationJob, Wiring.make_chan.
  destruct (_ || _); [by intros [= _ ?]|].
  unfold signal.RegisterHandler.
  destruct (signal.registerFault (Wiring.SignalManager w)); [by intros [= _ ?]|].
  intros [= <-]. simpl.
  destruct (registerReAuthenticationJob_added mgr (Wiring.AuthHandlers params)
              (job.Add [] (job.Observer "auth request processing"
                             (job.mgr_handleAuthRequest mgr)
                             (job.FromChannel (mkChan "signalChannel"
                                (Wiring.MeshAuthQueueSize (Wiring.Config params)))))))
    as (reauth & -> & Hall & _).
  exists mgr, (mkChan "signalChannel" (Wiring.MeshAuthQueueSize (Wiring.Config params))),
         reauth.
  split; [|split; [|split]]; [|apply elem_of_app; right; by left|done..].
  rewrite <- app_assoc. simpl. by rewrite registerGCJobs_app.
Qed.

(** C10: [registerGCJobs] appends to the job group a job invoking the
    identity handler exactly when [CiliumIdentities] is not nil, a job
    invoking the node handler exactly when [CiliumNodes] is not nil, and
    always the expiration timer; with both resources nil the timer is the
    only job it adds.  The same holds of the whole job group [newManager]
    hands to the lifecycle, so without the resources no started job runs
    identity or node GC while the expiration timer is started. *)
Theorem registerGCJobs_conditional params :
  let added := Wiring.registerGCJobs [] params in
  (∀ g, Wiring.registerGCJobs g params = g ++ added) ∧
  ((∃ j, j ∈ added ∧ job.fnOf j = job.mapGC_handleCiliumIdentityEvent)
     ↔ Wiring.CiliumIdentities params ≠ None) ∧
  ((∃ j, j ∈ added ∧ job.fnOf j = job.mapGC_handleCiliumNodeEvent)
     ↔ Wiring.CiliumNodes params ≠ None) ∧
  job.Timer "auth expiration gc" job.mapGC_CleanupExpiredEntries
    (Wiring.MeshAuthExpiredGCInterval (Wiring.Config params)) ∈ added ∧
  (Wiring.CiliumIdentities params = None → Wiring.CiliumNodes params = None →
   added = [job.Timer "auth expiration gc" job.mapGC_CleanupExpiredEntries
              (Wiring.MeshAuthExpiredGCInterval (Wiring.Config params))]) ∧
  (∀ limit fault w w',
     Wiring.newManager limit fault params w = (w', Wiring.Done) →
     ∃ jobs,
       last (Wiring.Lifecycle w') = Some (hive.jobGroupHook jobs) ∧
       ((∃ j, j ∈ jobs ∧ job.fnOf j = job.mapGC_handleCiliumIdentityEvent)
          ↔ Wiring.CiliumIdentities params ≠ None) ∧
       ((∃ j, j ∈ jobs ∧ job.fnOf j = job.mapGC_handleCiliumNodeEvent)
          ↔ Wiring.CiliumNodes params ≠ None) ∧
       job.Timer "auth expiration gc" job.mapGC_CleanupExpiredEntries
         (Wiring.MeshAuthExpiredGCInterval (Wiring.Config params)) ∈ jobs).
Proof.
  intros added. subst added.
  destruct (registerGCJobs_added params) as (Hid & Hnode & _ & _ & Htimer & Honly).
  split; [intros g; apply registerGCJobs_app|].
  split; [done|]. split; [done|]. split; [done|]. split; [done|].
  intros limit fault w w' Hnew.
  destruct (newManager_jobs _ _ _ _ _ Hnew) as (mgr & ch & reauth & -> & _ & _ & Hre).
  eexists. split.
  { change [hive.restoreCacheHook; hive.jobGroupHook ?js]
      with ([hive.restoreCacheHook] ++ [hive.jobGroupHook js]).
    rewrite app_assoc. apply last_snoc. }
  assert (Hother : ∀ fn j,
    (∀ m, fn ≠ job.mgr_handleAuthRequest m) →
    (∀ m, fn ≠ job.mgr_handleCertificateRotationEvent m) →
    j ∈ job.Observer "auth request processing" (job.mgr_handleAuthRequest mgr)
          (job.FromChannel ch) :: reauth ++ Wiring.registerGCJobs [] params →
    job.fnOf j = fn → j ∈ Wiring.registerGCJobs [] params).
  { intros fn j Hfn1 Hfn2 [->|[Hj|Hj]%elem_of_app]%elem_of_cons Hfn; [| |done].
    - simpl in Hfn. by destruct (Hfn1 mgr).
    - rewrite Forall_forall in Hre. rewrite (Hre j Hj) in Hfn. by destruct (Hfn2 mgr). }
  split; [|split].
  - rewrite <- Hid. split.
    + intros (j & Hj & Hfn). exists j. split; [|done].
      by apply (Hother job.mapGC_handleCiliumIdentityEvent).
    + intros (j & Hj & Hfn). exists j. split; [|done].
      right. apply elem_of_app. by right.
  - rewrite <- Hnode. split.
    + intros (j & Hj & Hfn). exists j. split; [|done].
      by apply (Hother job.mapGC_handleCiliumNodeEvent).
    + intros (j & Hj & Hfn). exists j. split; [|done].
      right. apply elem_of_app. by right.
  - right. apply elem_of_app. by right.
Qed.

Lemma registerGCJobs_conditional_witness :
  Wiring.registerGCJobs [] Scenario.params
    = [job.Timer "auth expiration gc" job.mapGC_CleanupExpiredEntries 900000000000] ∧
  ∃ jobs,
    last (Wiring.Lifecycle (Wiring.newManager Scenario.chanLimit None Scenario.params Scenario.world).1)
      = Some (hive.jobGroupHook jobs) ∧
    job.Timer "auth expiration gc" job.mapGC_CleanupExpiredEntries 900000000000 ∈ jobs.
Proof.
  destruct (registerGCJobs_conditional Scenario.params)
    as (_ & _ & _ & _ & Honly & Hgroup).
  split; [apply Honly; reflexivity|].
  destruct (Hgroup Scenario.chanLimit None Scenario.world
              (Wiring.newManager Scenario.chanLimit None Scenario.params Scenario.world).1 eq_refl)
    as (jobs & Hlast & _ & _ & Htimer).
  exists jobs. split; [exact Hlast | exact Htimer].
Defined.

(** ** Startup order *)

Import System.

Lemma restoreFirst_nil : restoreFirst [].
Proof. intros before now sig after H. by destruct before. Qed.

Lemma snoc_split {A} (tr before after : list A) (x y : A) :
  tr ++ [x] = before ++ y :: after →
  (after = [] ∧ before = tr ∧ x = y) ∨
  (∃ after', after = after' ++ [x] ∧ tr = before ++ y :: after').
Proof.
  destruct after as [|z after _] using rev_ind; intros H.
  - left. apply app_inj_tail in H as [-> ->]. done.
  - right. exists after.
    change (before ++ y :: after ++ [z]) with (before ++ (y :: after) ++ [z]) in H.
    rewrite app_assoc in H. by apply app_inj_tail in H as [-> ->].
Qed.

Lemma restoreFirst_restored tr : restoreFirst tr → restoreFirst (tr ++ [EvRestored]).
Proof.
  intros Htr before now sig after H.
  apply snoc_split in H as [(_ & _ & ?)|(after' & _ & H)]; [done|].
  by eapply Htr.
Qed.

Lemma restoreFirst_handled tr now sig :
  restoreFirst tr → EvRestored ∈ tr → restoreFirst (tr ++ [EvHandled now sig]).
Proof.
  intros Htr Hin before now' sig' after H.
  apply snoc_split in H as [(_ & -> & _)|(after' & _ & H)]; [done|].
  by eapply Htr.
Qed.

Lemma guarded_mono (R R' : Prop) hooks : (R → R') → guarded R hooks → guarded R' hooks.
Proof.
  intros HR. induction hooks as [|[| |] hooks IH]; simpl; [done..| |done].
  intros [Hj Hg]. split; [|by apply IH]. auto.
Qed.

Section RunFacts.
Variable F : AuthMapStore.Faults.
Variable sm : signal.SignalManager.

(** Observers that are not signal consumers leave state and trace alone;
    a consumer appends a handled event, and only a consumer does. *)
Lemma observe_fold now sig jobs : ∀ acc,
  (¬ Exists job.authJob jobs → foldl (observe F sm now sig) acc jobs = acc) ∧
  ∃ n, (foldl (observe F sm now sig) acc jobs).2 = acc.2 ++ replicate n (EvHandled now sig) ∧
       (n = 0 ∨ Exists job.authJob jobs).
Proof.
  induction jobs as [|j jobs IH]; intros acc; simpl.
  - split; [done|]. exists 0. simpl. rewrite app_nil_r. auto.
  - destruct (IH (observe F sm now sig acc j)) as [Hsame (n & Htr & Hn)].
    split.
    + intros Hno. rewrite Hsame by (intros H; apply Hno; by right).
      destruct j as [name [m|m| | |] [ch|r]|]; simpl; try done.
      exfalso. apply Hno. by left.
    + rewrite Htr.
      destruct j as [name [m|m| | |] [ch|r]|]; simpl;
        try (exists n; split; [done|]; destruct Hn; [by left | by right; right]).
      case_bool_decide.
      * exists (S n). simpl. rewrite <- app_assoc. simpl.
        split; [reflexivity | by right; left].
      * exists n. split; [done|]. destruct Hn; [by left | by right; right].
Qed.

Lemma restoreFirst_replicate tr now sig n :
  restoreFirst tr → EvRestored ∈ tr →
  restoreFirst (tr ++ replicate n (EvHandled now sig)).
Proof.
  revert tr. induction n as [|n IH]; intros tr Htr Hin; simpl.
  - by rewrite app_nil_r.
  - change (tr ++ EvHandled now sig :: replicate n (EvHandled now sig))
      with (tr ++ [EvHandled now sig] ++ replicate n (EvHandled now sig)).
    rewrite app_assoc. apply IH; [by apply restoreFirst_handled|].
    apply elem_of_app. by left.
Qed.

Lemma raise_idle now sig s :
  ¬ Exists job.authJob (running s) → raise F sm now sig s = s.
Proof.
  intros Hno. unfold raise.
  destruct (observe_fold now sig (running s) (state s, trace s)) as [Hsame _].
  rewrite (Hsame Hno). by destruct s.
Qed.

Lemma raise_inv now sig s : Inv s → Inv (raise F sm now sig s).
Proof.
  intros [Ho Hr Hp]. unfold raise.
  destruct (observe_fold now sig (running s) (state s, trace s)) as [_ (n & Htr & Hn)].
  destruct (foldl _ _ _) as [st tr]. simpl in Htr. subst tr.
  destruct Hn as [->|Hauth].
  - simpl. rewrite app_nil_r. by constructor.
  - pose proof (Hr Hauth) as Hin.
    constructor; simpl.
    + by apply restoreFirst_replicate.
    + intros _. apply elem_of_app. by left.
    + intros Hph. eapply guarded_mono; [|by apply Hp].
      intros _. apply elem_of_app. by left.
Qed.

Lemma tick_inv s : Inv s → Inv (tick F s).
Proof.
  intros [Ho Hr Hp]. unfold tick.
  destruct (phase s) eqn:Hph; [|by constructor; rewrite ?Hph..].
  destruct (pending s) as [|h rest] eqn:Hpend.
  { by constructor. }
  specialize (Hp eq_refl). simpl in Hp.
  destruct h as [|jobs|name [err|]]; simpl.
  - destruct (restoreCache F (cache (state s))) as [c [err|]]; simpl.
    + by constructor.
    + constructor; simpl.
      * by apply restoreFirst_restored.
      * intros _. apply elem_of_app. right. by left.
      * intros _. eapply (guarded_mono True); [|clear; induction rest as [|[| |] ? ?]; simpl; auto].
        intros _. apply elem_of_app. right. by left.
  - destruct Hp as [Hj Hg]. constructor; simpl; [done| |done].
    intros [H|H]%Exists_app; auto.
  - by constructor.
  - by constructor.
Qed.

Lemma run_inv inputs : ∀ s, Inv s → Inv (run F sm inputs s).
Proof.
  unfold run. induction inputs as [|i inputs IH]; intros s Hs; simpl; [done|].
  apply IH. destruct i; simpl; [by apply tick_inv | by apply raise_inv].
Qed.

Lemma run_aborted inputs : ∀ s e,
  phase s = Aborted e → phase (run F sm inputs s) = Aborted e.
Proof.
  unfold run. induction inputs as [|i inputs IH]; intros s e Hph; simpl; [done|].
  apply IH. destruct i; simpl.
  - unfold tick. by rewrite Hph.
  - unfold raise. by destruct (foldl _ _ _).
Qed.

End RunFacts.

Lemma newManager_done limit fault params w w' :
  Wiring.newManager limit fault params w = (w', Wiring.Done) →
  ∃ jobs, Wiring.Lifecycle w' =
          Wiring.Lifecycle w ++ [hive.restoreCacheHook; hive.jobGroupHook jobs].
Proof.
  intros Hnew.
  destruct (newManager_jobs _ _ _ _ _ Hnew) as (mgr & ch & reauth & -> & _). eauto.
Qed.

Lemma boot_inv lc post jobs store0 :
  Forall hive.foreign lc →
  Inv (boot ((lc ++ [hive.restoreCacheHook; hive.jobGroupHook jobs]) ++ post) store0).
Proof.
  intros Hlc. constructor; simpl.
  - apply restoreFirst_nil.
  - by intros H%Exists_nil.
  - intros _. rewrite <- app_assoc.
    induction Hlc as [|[| |] lc Hh Hlc IH]; simpl; done.
Qed.

Section RestoreFails.
Variable F : AuthMapStore.Faults.
Variable sm : signal.SignalManager.
Variable store0 : entries.
Variable e : Error.
Hypothesis restore_fails : (restoreCache F (mkCache ∅ store0)).2 = Some e.

(** While the restore hook is still ahead and fails when run, nothing is
    ever started or handled and startup never completes. *)
Lemma run_never_serves inputs : ∀ s,
  (phase s = Starting →
   ∃ pre rest, pending s = pre ++ hive.restoreCacheHook :: rest ∧ Forall hive.foreign pre) →
  phase s ≠ Started → running s = [] → trace s = [] →
  state s = mkState (mkCache ∅ store0) [] [] →
  phase (run F sm inputs s) ≠ Started ∧
  trace (run F sm inputs s) = [] ∧
  running (run F sm inputs s) = [].
Proof.
  unfold run. induction inputs as [|i inputs IH]; intros s Hpend Hph Hrun Htr Hst; simpl.
  { done. }
  destruct i as [|now sig]; simpl.
  - unfold tick. destruct (phase s) eqn:Hphase; [|done|by apply IH; rewrite ?Hphase].
    destruct (Hpend eq_refl) as (pre & rest & -> & Hpre).
    destruct pre as [|h pre]; simpl.
    + rewrite Hst. simpl.
      destruct (restoreCache F (mkCache ∅ store0)) as [c [err|]]; [|done].
      by apply IH.
    + apply Forall_cons in Hpre as [Hh Hpre].
      destruct h as [| |name [err|]]; try done; simpl.
      * by apply IH.
      * apply IH; simpl; try done. intros _. by exists pre, rest.
  - unfold raise. rewrite Hrun. simpl. by apply IH.
Qed.

(** Once the hooks ahead of the restore hook have started, the failing
    restore aborts startup with its wrapped error. *)
Lemma run_aborts inputs : ∀ s pre rest,
  phase s = Starting → pending s = pre ++ hive.restoreCacheHook :: rest →
  Forall hive.succeeds pre → running s = [] →
  state s = mkState (mkCache ∅ store0) [] [] →
  length pre < ticks inputs →
  phase (run F sm inputs s) = Aborted (ErrWrap "failed to restore auth map cache" e).
Proof.
  induction inputs as [|i inputs IH]; intros s pre rest Hph Hpend Hpre Hrun Hst Hlen;
    simpl in Hlen; [lia|].
  destruct i as [|now sig]; simpl.
  - change (run F sm (Tick :: inputs) s) with (run F sm inputs (tick F s)).
    unfold tick. rewrite Hph, Hpend.
    destruct pre as [|h pre]; simpl.
    + rewrite Hst. simpl.
      destruct (restoreCache F (mkCache ∅ store0)) as [c [err|]]; [|done].
      simpl in restore_fails. injection restore_fails as ->.
      by apply run_aborted.
    + apply Forall_cons in Hpre as [Hh Hpre].
      destruct h as [| |name [err|]]; try done; simpl.
      apply (IH _ pre rest); simpl; try done. simpl in Hlen. lia.
  - change (run F sm (Signal now sig :: inputs) s) with (run F sm inputs (raise F sm now sig s)).
    rewrite raise_idle by (rewrite Hrun; by intros ?%Exists_nil).
    by apply (IH _ pre rest).
Qed.

End RestoreFails.

Lemma succeeds_foreign h : hive.succeeds h → hive.foreign h.
Proof. by destruct h as [| |? []]. Qed.

(** C3: take the lifecycle [newManager] leaves behind, with the hooks other
    cells appended before and after it, and any schedule of hook starts and
    raised signals.  Every handled signal stands in the trace behind the
    completed restore.  And if [restoreCache] returns an error, no signal
    is ever handled and startup never completes; once the hooks ahead have
    started, startup is aborted with that error, wrapped. *)
Theorem restore_completes_before_signals F limit fault params w w' post inputs :
  Forall hive.foreign (Wiring.Lifecycle w) →
  Forall hive.foreign post →
  Wiring.newManager limit fault params w = (w', Wiring.Done) →
  let s := run F (Wiring.SignalManager w') inputs
               (boot (Wiring.Lifecycle w' ++ post) (Wiring.AuthMap params)) in
  (∀ before now sig after,
      trace s = before ++ EvHandled now sig :: after → EvRestored ∈ before) ∧
  (∀ e, (restoreCache F (mkCache ∅ (Wiring.AuthMap params))).2 = Some e →
        (∀ now sig, EvHandled now sig ∉ trace s) ∧
        phase s ≠ Started ∧
        (Forall hive.succeeds (Wiring.Lifecycle w) →
         length (Wiring.Lifecycle w) < ticks inputs →
         phase s = Aborted (ErrWrap "failed to restore auth map cache" e))).
Proof.
  intros Hlc Hpost Hnew s. subst s.
  destruct (newManager_done _ _ _ _ _ Hnew) as (jobs & ->).
  split.
  - apply (inv_order _ (run_inv F _ inputs _ (boot_inv _ post jobs _ Hlc))).
  - intros e Hfail.
    assert (Hshape :
      ((Wiring.Lifecycle w ++ [hive.restoreCacheHook; hive.jobGroupHook jobs]) ++ post)
      = Wiring.Lifecycle w ++ hive.restoreCacheHook :: (hive.jobGroupHook jobs :: post)).
    { by rewrite <- app_assoc. }
    rewrite Hshape.
    destruct (run_never_serves F (Wiring.SignalManager w') _ e Hfail inputs
                (boot (Wiring.Lifecycle w ++ hive.restoreCacheHook :: hive.jobGroupHook jobs :: post)
                      (Wiring.AuthMap params)))
      as (Hph & Htr & _); simpl; try done.
    { intros _. by eexists _, _. }
    split; [|split; [done|]].
    + intros now sig. rewrite Htr. apply not_elem_of_nil.
    + intros Hok Hlen.
      by eapply (run_aborts F (Wiring.SignalManager w') _ e Hfail inputs _
                   (Wiring.Lifecycle w) (hive.jobGroupHook jobs :: post)).
Qed.

Lemma restore_completes_before_signals_witness :
  let w' := (Wiring.newManager Scenario.chanLimit None Scenario.params Scenario.world).1 in
  let boot0 := boot (Wiring.Lifecycle w' ++ Scenario.later)
                    (Wiring.AuthMap Scenario.params) in
  let good := run AuthMapStore.reliable (Wiring.SignalManager w') Scenario.schedule boot0 in
  let bad := run AuthMapStore.broken (Wiring.SignalManager w') Scenario.schedule boot0 in
  (trace good = [EvRestored; EvHandled 700 Scenario.signalA] ∧
   EvRestored ∈ [EvRestored]) ∧
  (EvHandled 700 Scenario.signalA ∉ trace bad) ∧
  phase bad = Aborted (ErrWrap "failed to restore auth map cache"
                               (ErrMsg "all: i/o error")).
Proof.
  intros w' boot0 good bad.
  assert (Hlc : Forall hive.foreign (Wiring.Lifecycle Scenario.world)).
  { repeat constructor. }
  assert (Hpost : Forall hive.foreign Scenario.later).
  { repeat constructor. }
  assert (Hnew : Wiring.newManager Scenario.chanLimit None Scenario.params Scenario.world = (w', Wiring.Done)).
  { reflexivity. }
  destruct (restore_completes_before_signals AuthMapStore.reliable Scenario.chanLimit None Scenario.params
              Scenario.world w' Scenario.later Scenario.schedule Hlc Hpost Hnew)
    as (Horder & _).
  destruct (restore_completes_before_signals AuthMapStore.broken Scenario.chanLimit None Scenario.params
              Scenario.world w' Scenario.later Scenario.schedule Hlc Hpost Hnew)
    as (_ & Hfail).
  destruct (Hfail (ErrMsg "all: i/o error") eq_refl) as (Hnever & _ & Habort).
  assert (Htrace : trace good = [EvRestored; EvHandled 700 Scenario.signalA]).
  { reflexivity. }
  split; [split; [exact Htrace|]|split].
  - exact (Horder [EvRestored] 700%Z Scenario.signalA [] Htrace).
  - apply Hnever.
  - apply Habort; [repeat constructor | simpl; lia].
Defined.

(** ** The scenarios of the specification, run *)

(** A first signal for (100, 200, 7) authenticates once and is cached until
    600 in mirror and store; the same signal at 599 changes nothing; the
    sweep at 600 removes the entry; the signal at 601 authenticates again. *)
Example end_to_end_expiry :
  let run1 := handleAuthRequest AuthMapStore.reliable Scenario.manager 0
                Scenario.signalA Scenario.emptyState in
  let run2 := handleAuthRequest AuthMapStore.reliable Scenario.manager 599
                Scenario.signalA run1 in
  let run3 := AuthMapGC.CleanupExpiredEntries AuthMapStore.reliable 600 run2 in
  let run4 := handleAuthRequest AuthMapStore.reliable Scenario.manager 601
                Scenario.signalA run3 in
  length (authCalls run1) = 1 ∧
  mirror (cache run1) !! Scenario.keyA = Some (mkValue 600) ∧
  store (cache run1) !! Scenario.keyA = Some (mkValue 600) ∧
  run2 = run1 ∧
  mirror (cache run3) !! Scenario.keyA = None ∧
  store (cache run3) !! Scenario.keyA = None ∧
  length (authCalls run4) = 2 ∧
  mirror (cache run4) !! Scenario.keyA = Some (mkValue 1201).
Proof. repeat split; reflexivity. Qed.

(** Deleting identity 200 while the entry is live removes it from mirror
    and store without waiting for its expiration. *)
Example end_to_end_identity_deleted :
  let run1 := handleAuthRequest AuthMapStore.reliable Scenario.manager 0
                Scenario.signalA Scenario.emptyState in
  let run2 := AuthMapGC.handleCiliumIdentityEvent AuthMapStore.reliable
                (AuthMapGC.mkEvent AuthMapGC.Delete 200) run1 in
  mirror (cache run2) !! Scenario.keyA = None ∧
  store (cache run2) !! Scenario.keyA = None.
Proof. split; reflexivity. Qed.

(** A store that refuses the write leaves no entry behind: the next signal
    authenticates again. *)
Example end_to_end_store_refuses :
  let run1 := handleAuthRequest AuthMapStore.broken Scenario.manager 0
                Scenario.signalA Scenario.emptyState in
  cache run1 = cache Scenario.emptyState ∧
  reported run1 = [ErrMsg "update: i/o error"] ∧
  length (authCalls (handleAuthRequest AuthMapStore.broken Scenario.manager 1
                       Scenario.signalA run1)) = 2.
Proof. repeat split; reflexivity. Qed.

(** * Further properties of the wiring *)

Lemma registerReAuthenticationJob_closed mgr hs : ∀ g,
  Wiring.registerReAuthenticationJob g mgr hs
  = g ++ (Shape.rotationObserver mgr <$> Shape.rotationChannels hs).
Proof.
  unfold Wiring.registerReAuthenticationJob, Shape.rotationChannels.
  induction hs as [|ah hs IH]; intros g; simpl.
  - by rewrite app_nil_r.
  - destruct ah as [h|]; simpl; [|apply IH].
    destruct (subscribeToRotatedIdentities h) as [ch|]; simpl; [|apply IH].
    rewrite IH. unfold job.Add. by rewrite <- app_assoc.
Qed.

Lemma elem_of_rotationChannels hs ch :
  ch ∈ Shape.rotationChannels hs ↔
  ∃ h, Some h ∈ hs ∧ subscribeToRotatedIdentities h = Some ch.
Proof.
  unfold Shape.rotationChannels. rewrite list_elem_of_omap. split.
  - intros ([h|] & Hin & Hch); [|done]. by exists h.
  - intros (h & Hin & Hch). by exists (Some h).
Qed.

(** [newManager], with the calls it makes resolved. *)
Lemma newManager_closed limit fault params w :
  Wiring.newManager limit fault params w =
  let restoreOnly := Wiring.mkWorld (Wiring.Lifecycle w ++ [hive.restoreCacheHook])
                                    (Wiring.SignalManager w) in
  match fault with
  | Some err => (restoreOnly, Wiring.Failed (ErrWrap "failed to create auth manager" err))
  | None =>
      if (Wiring.MeshAuthQueueSize (Wiring.Config params) <? 0)%Z
         || (limit <? Wiring.MeshAuthQueueSize (Wiring.Config params))%Z
      then (restoreOnly, Wiring.Panicked "makechan: size out of range")
      else
        match signal.registerFault (Wiring.SignalManager w) with
        | Some err =>
            (restoreOnly,
             Wiring.Failed
               (ErrWrap "failed to register signal authentication job"
                  (ErrWrap "failed to set up signal channel for datapath authentication required events" err)))
        | None =>
            (Wiring.mkWorld
               (Wiring.Lifecycle w ++
                [hive.restoreCacheHook; hive.jobGroupHook (Shape.jobGroup params)])
               (signal.mkSignalManager None
                  (signal.registered (Wiring.SignalManager w) ++
                   [(Shape.signalChannel params, signal.SignalAuthRequired)])),
             Wiring.Done)
        end
  end.
Proof.
  unfold Wiring.newManager, Wiring.newAuthManager, hive.Append.
  destruct fault as [err|]; simpl; [done|].
  unfold Wiring.registerSignalAuthenticationJob, Wiring.make_chan.
  destruct (_ || _); [by destruct w|].
  unfold signal.RegisterHandler.
  destruct (signal.registerFault (Wiring.SignalManager w)) as [err|] eqn:Hreg.
  - by destruct w as [lc [rf rg]]; simpl in *; subst.
  - rewrite registerGCJobs_app, registerReAuthenticationJob_closed.
    unfold job.Add, Shape.jobGroup, Shape.managerOf, Shape.signalChannel. simpl.
    by rewrite <- !app_assoc.
Qed.

Lemma isDone_true o : Shape.isDone o = true ↔ o = Wiring.Done.
Proof. by destruct o. Qed.

(** X1: the outcome of [newManager] is decided in this order: a manager
    that cannot be created fails it with that error wrapped, whatever the
    queue size; else a queue size that [make] refuses, negative or beyond
    the runtime's limit, panics; else a refused signal registration fails
    it with the error wrapped twice; else it is done.  So it is done
    exactly when the manager was created, [make] accepts the queue size
    and the registration was accepted. *)
Theorem newManager_outcome limit fault params w :
  let o := (Wiring.newManager limit fault params w).2 in
  let size := Wiring.MeshAuthQueueSize (Wiring.Config params) in
  let refused := signal.registerFault (Wiring.SignalManager w) in
  (o = Wiring.Done ↔ fault = None ∧ (0 ≤ size ≤ limit)%Z ∧ refused = None) ∧
  (∀ err, fault = Some err →
          o = Wiring.Failed (ErrWrap "failed to create auth manager" err)) ∧
  (fault = None → (size < 0 ∨ limit < size)%Z →
   o = Wiring.Panicked "makechan: size out of range") ∧
  (∀ err, fault = None → (0 ≤ size ≤ limit)%Z → refused = Some err →
          o = Wiring.Failed
                (ErrWrap "failed to register signal authentication job"
                   (ErrWrap "failed to set up signal channel for datapath authentication required events" err))).
Proof.
  intros o size refused. subst o size refused.
  rewrite newManager_closed. simpl.
  destruct fault as [ferr|]; simpl.
  { split; [|split; [|split]]; try done.
    - split; [done|]. by intros (? & _).
    - by intros err [= ->]. }
  destruct (Z.ltb_spec (Wiring.MeshAuthQueueSize (Wiring.Config params)) 0) as [Hneg|Hpos],
           (Z.ltb_spec limit (Wiring.MeshAuthQueueSize (Wiring.Config params))) as [Hbig|Hfit];
    simpl;
    try (split; [|split; [done|split; [done|]]];
         [split; [done|]; intros (_ & ? & _); lia | intros err _ ?; lia]).
  destruct (signal.registerFault (Wiring.SignalManager w)) as [rerr|]; simpl.
  - split; [|split; [done|split]].
    + split; [done|]. by intros (_ & _ & ?).
    + intros _ ?. lia.
    + by intros err _ _ [= ->].
  - split; [|split; [done|split]].
    + split; [intros _|done]. repeat split; try done; lia.
    + intros _ ?. lia.
    + done.
Qed.

Lemma newManager_outcome_witness :
  (Wiring.newManager Scenario.chanLimit None Scenario.params Scenario.world).2 = Wiring.Done ∧
  (Wiring.newManager Scenario.chanLimit (Some (ErrMsg "duplicate handler"))
     Scenario.params Scenario.world).2
    = Wiring.Failed (ErrWrap "failed to create auth manager" (ErrMsg "duplicate handler")) ∧
  (Wiring.newManager 1000 None Scenario.params Scenario.world).2
    = Wiring.Panicked "makechan: size out of range".
Proof.
  destruct (newManager_outcome Scenario.chanLimit None Scenario.params Scenario.world)
    as (Hdone & _).
  destruct (newManager_outcome Scenario.chanLimit (Some (ErrMsg "duplicate handler"))
              Scenario.params Scenario.world) as (_ & Hfail & _).
  destruct (newManager_outcome 1000 None Scenario.params Scenario.world)
    as (_ & _ & Hpanic & _).
  split; [|split].
  - apply Hdone. split; [reflexivity|].
    split; [vm_compute; split; discriminate | reflexivity].
  - apply Hfail. reflexivity.
  - apply Hpanic; [reflexivity | right; vm_compute; reflexivity].
Defined.

(** X2: [newManager] keeps the hooks that were there, in place, and always
    appends the restore hook right behind them, also when it fails or
    panics; the job group follows as the last hook exactly when it is
    done, and it holds the request observer, one rotation observer per
    rotation channel in handler order, then the GC jobs. *)
Theorem newManager_lifecycle limit fault params w :
  Wiring.Lifecycle (Wiring.newManager limit fault params w).1 =
  Wiring.Lifecycle w ++
  hive.restoreCacheHook ::
  (if Shape.isDone (Wiring.newManager limit fault params w).2
   then [hive.jobGroupHook (Shape.jobGroup params)] else []).
Proof.
  rewrite newManager_closed. simpl.
  destruct fault as [ferr|]; simpl; [done|].
  destruct (_ || _); simpl; [done|].
  by destruct (signal.registerFault (Wiring.SignalManager w)).
Qed.

(** X3: when [newManager] is done the signal manager has gained exactly one
    registration, behind the earlier ones: the signal channel, made with
    the configured queue size, for the auth-required signal.  In every
    other outcome the signal manager is as it was. *)
Theorem newManager_signal_registration limit fault params w :
  Wiring.SignalManager (Wiring.newManager limit fault params w).1 =
  (if Shape.isDone (Wiring.newManager limit fault params w).2
   then signal.mkSignalManager None
          (signal.registered (Wiring.SignalManager w) ++
           [(mkChan "signalChannel" (Wiring.MeshAuthQueueSize (Wiring.Config params)),
             signal.SignalAuthRequired)])
   else Wiring.SignalManager w).
Proof.
  rewrite newManager_closed. simpl.
  destruct fault as [ferr|]; simpl; [done|].
  destruct (_ || _); simpl; [done|].
  by destruct (signal.registerFault (Wiring.SignalManager w)).
Qed.

Lemma length_rotationChannels hs :
  length (Shape.rotationChannels hs) ≤ length hs.
Proof.
  unfold Shape.rotationChannels.
  induction hs as [|ah hs IH]; simpl; [done|].
  change (list_omap _ _ ?f hs) with (omap f hs).
  destruct (ah ≫= subscribeToRotatedIdentities); simpl; lia.
Qed.

Lemma length_registerGCJobs params :
  length (Wiring.registerGCJobs [] params) = S (Shape.resources params).
Proof.
  unfold Wiring.registerGCJobs, Shape.resources, job.Add.
  by destruct (Wiring.CiliumIdentities params), (Wiring.CiliumNodes params).
Qed.

Lemma last_registerGCJobs params :
  last (Wiring.registerGCJobs [] params) =
  Some (job.Timer "auth expiration gc" job.mapGC_CleanupExpiredEntries
          (Wiring.MeshAuthExpiredGCInterval (Wiring.Config params))).
Proof.
  unfold Wiring.registerGCJobs, job.Add.
  by destruct (Wiring.CiliumIdentities params), (Wiring.CiliumNodes params).
Qed.

Lemma newManager_done_last limit fault params w :
  (Wiring.newManager limit fault params w).2 = Wiring.Done →
  last (Wiring.Lifecycle (Wiring.newManager limit fault params w).1)
    = Some (hive.jobGroupHook (Shape.jobGroup params)).
Proof.
  intros Hdone. rewrite newManager_closed in Hdone |- *. simpl in *.
  destruct fault as [ferr|]; simpl in *; [done|].
  destruct (_ || _); simpl in *; [done|].
  destruct (signal.registerFault (Wiring.SignalManager w)); simpl in *; [done|].
  change [hive.restoreCacheHook; hive.jobGroupHook (Shape.jobGroup params)]
    with ([hive.restoreCacheHook] ++ [hive.jobGroupHook (Shape.jobGroup params)]).
  rewrite app_assoc. apply last_snoc.
Qed.

(** X4: the job group of a [newManager] that is done starts with the
    request observer and ends with the expiration timer, and holds two
    jobs plus one per rotation channel plus one per Kubernetes resource
    that is there: at least 2 and at most 4 more than there are
    handlers. *)
Theorem newManager_job_group_size limit fault params w :
  (Wiring.newManager limit fault params w).2 = Wiring.Done →
  ∃ jobs,
    last (Wiring.Lifecycle (Wiring.newManager limit fault params w).1)
      = Some (hive.jobGroupHook jobs) ∧
    head jobs = Some (job.Observer "auth request processing"
                        (job.mgr_handleAuthRequest (Shape.managerOf params))
                        (job.FromChannel (Shape.signalChannel params))) ∧
    last jobs = Some (job.Timer "auth expiration gc" job.mapGC_CleanupExpiredEntries
                        (Wiring.MeshAuthExpiredGCInterval (Wiring.Config params))) ∧
    length jobs = 2 + length (Shape.rotationChannels (Wiring.AuthHandlers params))
                  + Shape.resources params ∧
    2 ≤ length jobs ≤ length (Wiring.AuthHandlers params) + 4.
Proof.
  intros Hdone. exists (Shape.jobGroup params).
  assert (Hlen : length (Shape.jobGroup params)
                 = 2 + length (Shape.rotationChannels (Wiring.AuthHandlers params))
                   + Shape.resources params).
  { unfold Shape.jobGroup. simpl.
    rewrite length_app, length_fmap, length_registerGCJobs. lia. }
  split; [|split; [done|split; [|split; [done|]]]].
  - by apply newManager_done_last.
  - unfold Shape.jobGroup. rewrite last_cons, last_app, last_registerGCJobs. done.
  - rewrite Hlen.
    pose proof (length_rotationChannels (Wiring.AuthHandlers params)).
    assert (Shape.resources params ≤ 2).
    { unfold Shape.resources.
      destruct (Wiring.CiliumIdentities params), (Wiring.CiliumNodes params); simpl; lia. }
    lia.
Qed.

Lemma newManager_job_group_size_witness :
  ∃ jobs,
    last (Wiring.Lifecycle (Wiring.newManager Scenario.chanLimit None Scenario.params Scenario.world).1)
      = Some (hive.jobGroupHook jobs) ∧
    length jobs = 3.
Proof.
  destruct (newManager_job_group_size Scenario.chanLimit None Scenario.params Scenario.world eq_refl)
    as (jobs & Hlast & _ & _ & Hlen & _).
  exists jobs. split; [exact Hlast | exact Hlen].
Defined.

(** X5: [registerReAuthenticationJob] keeps the group it is given and
    appends, in handler order, one rotation observer for each handler that
    is not nil and has a rotation channel, reading that channel; it adds
    nothing exactly when no handler has one; and registering for two
    handler lists in turn is registering for their concatenation. *)
Theorem registerReAuthenticationJob_observers g mgr hs :
  Wiring.registerReAuthenticationJob g mgr hs
    = g ++ (Shape.rotationObserver mgr <$> Shape.rotationChannels hs) ∧
  (∀ ch, ch ∈ Shape.rotationChannels hs ↔
         ∃ h, Some h ∈ hs ∧ subscribeToRotatedIdentities h = Some ch) ∧
  (Wiring.registerReAuthenticationJob g mgr hs = g ↔
   ∀ h, Some h ∈ hs → subscribeToRotatedIdentities h = None) ∧
  (∀ hs', Wiring.registerReAuthenticationJob g mgr (hs ++ hs')
          = Wiring.registerReAuthenticationJob
              (Wiring.registerReAuthenticationJob g mgr hs) mgr hs').
Proof.
  split; [apply registerReAuthenticationJob_closed|].
  split; [intros ch; apply elem_of_rotationChannels|].
  split.
  - rewrite registerReAuthenticationJob_closed. split.
    + intros Heq h Hin.
      destruct (subscribeToRotatedIdentities h) as [ch|] eqn:Hch; [|done].
      assert (Hmem : ch ∈ Shape.rotationChannels hs).
      { apply elem_of_rotationChannels. eauto. }
      apply app_self_nil, fmap_nil_inv in Heq. rewrite Heq in Hmem.
      by apply elem_of_nil in Hmem.
    + intros Hnone.
      destruct (Shape.rotationChannels hs) as [|ch chs] eqn:Hchs.
      * simpl. by rewrite app_nil_r.
      * assert (Hmem : ch ∈ Shape.rotationChannels hs) by (rewrite Hchs; by left).
        apply elem_of_rotationChannels in Hmem as (h & Hin & Hch).
        rewrite (Hnone h Hin) in Hch. done.
  - intros hs'. unfold Wiring.registerReAuthenticationJob. apply foldl_app.
Qed.

Lemma registerReAuthenticationJob_observers_witness :
  Wiring.registerReAuthenticationJob [] Scenario.manager
    [None; Some alwaysFailAuthHandler] = [].
Proof.
  destruct (registerReAuthenticationJob_observers [] Scenario.manager
              [None; Some alwaysFailAuthHandler]) as (_ & _ & Hnone & _).
  apply Hnone. intros h Hin.
  apply elem_of_cons in Hin as [Hin|Hin]; [discriminate Hin|].
  apply elem_of_cons in Hin as [Hin|Hin]; [by injection Hin as ->|].
  by apply elem_of_nil in Hin.
Defined.

(** X6: [registerSignalAuthenticationJob] acts as a whole or not at all.
    When it is done, which is exactly when [make] accepts the queue size
    (not negative, within the runtime's limit) and the registration is
    accepted, the group has gained the request observer and the signal
    manager the registration of the channel that observer reads.
    Otherwise the group and the signal manager are as they were. *)
Theorem registerSignalAuthenticationJob_all_or_nothing limit g mgr sm config :
  let r := Wiring.registerSignalAuthenticationJob limit g mgr sm config in
  let ch := mkChan "signalChannel" (Wiring.MeshAuthQueueSize config) in
  (Shape.isDone r.2 = true ↔
   (0 ≤ Wiring.MeshAuthQueueSize config ≤ limit)%Z ∧ signal.registerFault sm = None) ∧
  r.1 = (if Shape.isDone r.2
         then (g ++ [job.Observer "auth request processing"
                       (job.mgr_handleAuthRequest mgr) (job.FromChannel ch)],
               signal.mkSignalManager None
                 (signal.registered sm ++ [(ch, signal.SignalAuthRequired)]))
         else (g, sm)).
Proof.
  intros r ch. subst r ch.
  unfold Wiring.registerSignalAuthenticationJob, Wiring.make_chan.
  destruct (Z.ltb_spec (Wiring.MeshAuthQueueSize config) 0) as [Hneg|Hpos],
           (Z.ltb_spec limit (Wiring.MeshAuthQueueSize config)) as [Hbig|Hfit]; simpl;
    try (split; [|done]; split; [done|]; intros [? _]; lia).
  unfold signal.RegisterHandler.
  destruct (signal.registerFault sm) as [err|]; simpl.
  - split; [|done]. split; [done|]. by intros [_ ?].
  - split; [|done]. split; [intros _|done]. repeat split; try done; lia.
Qed.

Lemma jobGroup_names params :
  Shape.nameOf <$> Shape.jobGroup params =
  "auth request processing"
  :: replicate (length (Shape.rotationChannels (Wiring.AuthHandlers params)))
               "auth re-authentication"
  ++ (Shape.nameOf <$> Wiring.registerGCJobs [] params).
Proof.
  unfold Shape.jobGroup. rewrite fmap_cons, fmap_app. simpl. do 2 f_equal.
  induction (Shape.rotationChannels (Wiring.AuthHandlers params)) as [|ch chs IH];
    simpl; [done|]. f_equal. apply IH.
Qed.

(** X7: every rotation observer is registered under the same name, so the
    jobs of a done [newManager] have pairwise distinct names exactly when
    at most one handler has a rotation channel. *)
Theorem newManager_job_names_distinct limit fault params w :
  (Wiring.newManager limit fault params w).2 = Wiring.Done →
  ∃ jobs,
    last (Wiring.Lifecycle (Wiring.newManager limit fault params w).1)
      = Some (hive.jobGroupHook jobs) ∧
    (NoDup (Shape.nameOf <$> jobs) ↔
     length (Shape.rotationChannels (Wiring.AuthHandlers params)) ≤ 1).
Proof.
  intros Hdone. exists (Shape.jobGroup params). split.
  - by apply newManager_done_last.
  - rewrite jobGroup_names.
    assert (Hgc : ∃ names,
      Shape.nameOf <$> Wiring.registerGCJobs [] params = names ∧
      NoDup names ∧ ("auth request processing" ∉ names) ∧
      ("auth re-authentication" ∉ names)).
    { unfold Wiring.registerGCJobs, job.Add.
      destruct (Wiring.CiliumIdentities params), (Wiring.CiliumNodes params); simpl;
        eexists; (split; [reflexivity|]);
        (split; [|split]);
        rewrite ?NoDup_cons, ?not_elem_of_cons;
        repeat split; try discriminate; try apply not_elem_of_nil; apply NoDup_nil_2. }
    destruct Hgc as (names & -> & Hnd & Hreq & Hre).
    destruct (length (Shape.rotationChannels (Wiring.AuthHandlers params)))
      as [|[|n]]; simpl.
    + split; [lia|]. intros _. by apply NoDup_cons.
    + split; [lia|]. intros _.
      apply NoDup_cons. split.
      * apply not_elem_of_cons. split; [discriminate|done].
      * by apply NoDup_cons.
    + split; [|lia]. intros Hdup.
      apply NoDup_cons in Hdup as [_ Hdup].
      apply NoDup_cons in Hdup as [Hnotin _].
      exfalso. apply Hnotin. by left.
Qed.

Lemma newManager_job_names_distinct_witness :
  ∃ jobs,
    last (Wiring.Lifecycle (Wiring.newManager Scenario.chanLimit None Scenario.params Scenario.world).1)
      = Some (hive.jobGroupHook jobs) ∧
    NoDup (Shape.nameOf <$> jobs).
Proof.
  destruct (newManager_job_names_distinct Scenario.chanLimit None Scenario.params Scenario.world eq_refl)
    as (jobs & Hlast & Hiff).
  exists jobs. split; [exact Hlast|].
  apply Hiff. vm_compute. lia.
Defined.

(** X9: a GC observer is never wired to the wrong resource or handler:
    among the jobs [registerGCJobs] appends, a job running the identity
    handler is the identities observer reading the [CiliumIdentities]
    resource, a job running the node handler is the nodes observer reading
    the [CiliumNodes] resource, and they come in the order identities,
    nodes, timer. *)
Theorem registerGCJobs_sources g params :
  ∃ added,
    Wiring.registerGCJobs g params = g ++ added ∧
    (∀ j, j ∈ added → job.fnOf j = job.mapGC_handleCiliumIdentityEvent →
          ∃ r, Wiring.CiliumIdentities params = Some r ∧
               j = job.Observer "auth identities gc"
                     job.mapGC_handleCiliumIdentityEvent (job.FromResource r)) ∧
    (∀ j, j ∈ added → job.fnOf j = job.mapGC_handleCiliumNodeEvent →
          ∃ r, Wiring.CiliumNodes params = Some r ∧
               j = job.Observer "auth nodes gc"
                     job.mapGC_handleCiliumNodeEvent (job.FromResource r)) ∧
    Shape.nameOf <$> added =
      (if Wiring.CiliumIdentities params is Some _ then ["auth identities gc"] else []) ++
      (if Wiring.CiliumNodes params is Some _ then ["auth nodes gc"] else []) ++
      ["auth expiration gc"].
Proof.
  exists (Wiring.registerGCJobs [] params).
  split; [apply registerGCJobs_app|].
  unfold Wiring.registerGCJobs, job.Add.
  destruct (Wiring.CiliumIdentities params) as [ri|],
           (Wiring.CiliumNodes params) as [rn|]; simpl;
    (split; [|split; [|done]]); intros j Hj Hfn;
    repeat (apply elem_of_cons in Hj as [->|Hj]; [try discriminate Hfn; eauto|]);
    by apply elem_of_nil in Hj.
Qed.

Lemma registerGCJobs_sources_witness :
  ∃ added,
    Wiring.registerGCJobs []
      (Wiring.mkParams (Wiring.mkConfig 1024 (15 * Wiring.Minute)) (λ _, "10.0.0.7") []
                       ∅ (Some (job.mkResource "identities")) None) = added ∧
    Shape.nameOf <$> added = ["auth identities gc"; "auth expiration gc"].
Proof.
  destruct (registerGCJobs_sources []
              (Wiring.mkParams (Wiring.mkConfig 1024 (15 * Wiring.Minute))
                               (λ _, "10.0.0.7") [] ∅
                               (Some (job.mkResource "identities")) None))
    as (added & Hreg & _ & _ & Hnames).
  exists added. split; [exact Hreg | exact Hnames].
Defined.
